(** * zod: helpers/parseUtil.ts

    A shallow embedding of [src/deno/lib/helpers/parseUtil.ts]: the parse
    status tracker, the three-valued parse results, the issue factory and
    the array and object mergers, followed by the properties established
    about them.

    Conventions of the embedding.
    - A JavaScript value of type [any] is an element of the inductive type
      [any] below; numbers are the integral ones (indices, lengths), held as
      [Z].
    - A class instance that the source mutates in place (the [ParseStatus]
      tracker, the shared [common] object of a parse run) is threaded
      explicitly: every operation returns the object as it is left.
    - An [async] function is an interaction tree whose visible events are
      the [await]s of pending promises. *)

From stdpp Require Import gmap strings list fin_maps.
From ITree Require Import ITree ITreeFacts Events.State Events.StateFacts.

Local Open Scope string_scope.
Local Open Scope list_scope.
Local Open Scope Z_scope.

(* ===================================================================== *)
(** * JavaScript values *)
(* ===================================================================== *)

(** The values that flow through a parse.  An object is the finite map of
    its own properties; the order in which they were created is not
    represented. *)
#[warnings="-register-all"]
Inductive any : Type :=
| undefined
| null
| boolean (b : bool)
| number (n : Z)
| str (s : string)
| array (elems : list any)
| object (props : gmap string any).

(** [typeof v !== "undefined"] *)
Definition defined (v : any) : bool :=
  match v with
  | undefined => false
  | _ => true
  end.

(** Truthiness of an optional boolean property such as [alwaysSet?]. *)
Definition truthy_flag (b : option bool) : bool :=
  match b with
  | Some true => true
  | _ => false
  end.

(** Truthiness of an optional number such as [minLength?]: [undefined]
    and [0] are falsy. *)
Definition truthy_number (n : option Z) : bool :=
  match n with
  | Some k => negb (k =? 0)
  | None => false
  end.

(** [typeof n === "number"] for an optional number argument. *)
Definition typeof_number (n : option Z) : bool :=
  match n with
  | Some _ => true
  | None => false
  end.

(** [i < n] for an index [i] and an optional number; a comparison with
    [undefined] is false. *)
Definition index_lt (i : nat) (n : option Z) : bool :=
  match n with
  | Some k => Z.of_nat i <? k
  | None => false
  end.

(** [!strip || i < stripInvalidFrom], the test that guards
    [return INVALID] in the loop of [mergeArray]. *)
Abbreviation aborts_at strip i :=
  (negb (typeof_number strip) || index_lt i strip).

(* ===================================================================== *)
(** * Status and the ParseStatus tracker (lines 173-181) *)
(* ===================================================================== *)

(** The string literal type ["aborted" | "dirty" | "valid"]. *)
Inductive Status : Type := Aborted | Dirty | Valid.

#[global] Instance Status_eq_dec : EqDecision Status.
Proof. solve_decision. Defined.

(** The order valid < dirty < aborted, as a rank. *)
Definition rank (s : Status) : nat :=
  match s with
  | Valid => 0%nat
  | Dirty => 1%nat
  | Aborted => 2%nat
  end.

Module ParseStatus.

(** [class ParseStatus { value = "valid"; ... }] *)
Record t : Type := mk { value : Status }.

Definition new : t := mk Valid.

(** [dirty() { if (this.value === "valid") this.value = "dirty"; }] *)
Definition dirty (this : t) : t :=
  if decide (value this = Valid) then mk Dirty else this.

(** [abort() { if (this.value !== "aborted") this.value = "aborted"; }] *)
Definition abort (this : t) : t :=
  if decide (value this <> Aborted) then mk Aborted else this.

(** A call made on a tracker, and the effect of a sequence of calls. *)
Inductive call : Type := call_dirty | call_abort.

Definition perform (this : t) (c : call) : t :=
  match c with
  | call_dirty => dirty this
  | call_abort => abort this
  end.

Definition run (this : t) (cs : list call) : t := fold_left perform cs this.

End ParseStatus.

(* ===================================================================== *)
(** * Parse results (lines 188-214) *)
(* ===================================================================== *)

(** A resolved result as it exists at run time: either the frozen
    singleton [INVALID = { status: "aborted" }], which has no [value]
    property, or an object [{ status, value }].  [OK] and [DIRTY] build the
    latter; so do the mergers, with the tracker's status. *)
Inductive SyncParseReturnType (T : Type) : Type :=
| INVALID
| Res (status : Status) (value : T).

Arguments INVALID {T}.
Arguments Res {T} status value.

Definition DIRTY {T} (value : T) : SyncParseReturnType T := Res Dirty value.
Definition OK {T} (value : T) : SyncParseReturnType T := Res Valid value.

(** [x.status] *)
Definition status_of {T} (x : SyncParseReturnType T) : Status :=
  match x with
  | INVALID => Aborted
  | Res s _ => s
  end.

(** [x.value] read from a result of values: a missing property reads
    [undefined]. *)
Definition value_of (x : SyncParseReturnType any) : any :=
  match x with
  | INVALID => undefined
  | Res _ v => v
  end.

Definition isAborted {T} (x : SyncParseReturnType T) : bool :=
  bool_decide (status_of x = Aborted).
Definition isDirty {T} (x : SyncParseReturnType T) : bool :=
  bool_decide (status_of x = Dirty).
Definition isValid {T} (x : SyncParseReturnType T) : bool :=
  bool_decide (status_of x = Valid).

(** A pending [Promise<SyncParseReturnType<T>>]: its identity and the
    result it is fulfilled with.  Rejection is outside the model: a
    validator reports failure through its result. *)
Record Promise (T : Type) : Type := mkPromise {
  promise_id : nat;
  fulfilment : SyncParseReturnType T
}.

Arguments mkPromise {T} promise_id fulfilment.
Arguments promise_id {T} p.
Arguments fulfilment {T} p.

(** [ParseReturnType<T> = SyncParseReturnType<T> | AsyncParseReturnType<T>] *)
Inductive ParseReturnType (T : Type) : Type :=
| Sync (r : SyncParseReturnType T)
| Async (p : Promise T).

Arguments Sync {T} r.
Arguments Async {T} p.


(* ===================================================================== *)
(** * Issues and error maps (lines 6-91) *)
(* ===================================================================== *)

(** [ParsePathComponent = string | number] *)
Inductive ParsePathComponent : Type :=
| path_key (s : string)
| path_index (n : Z).

Definition ParsePath : Type := list ParsePathComponent.

Definition EMPTY_PATH : ParsePath := [].

(** [IssueData]: the code, the optional path suffix and message, and the
    remaining (kind-specific) properties, which the spread copies. *)
Module IssueData.
Record t : Type := mk {
  code : string;
  path : option ParsePath;
  message : option string;
  others : gmap string any
}.
End IssueData.

(** The issue handed to an error map: [{ ...issueData, path: fullPath }]. *)
Module ZodIssueOptionalMessage.
Record t : Type := mk {
  code : string;
  path : ParsePath;
  message : option string;
  others : gmap string any
}.
End ZodIssueOptionalMessage.

(** [ZodIssue]: an issue with its final message. *)
Module ZodIssue.
Record t : Type := mk {
  code : string;
  path : ParsePath;
  message : string;
  others : gmap string any
}.
End ZodIssue.

(** The second argument of an error map. *)
Module ErrorMapCtx.
Record t : Type := mk {
  defaultError : string;
  data : any
}.
End ErrorMapCtx.

(** [ZodErrorMap]: the function is identified with the [message] of the
    object it returns. *)
Definition ZodErrorMap : Type :=
  ZodIssueOptionalMessage.t -> ErrorMapCtx.t -> string.

(** The parameter object of [makeIssue].  An entry of [errorMaps] may be
    falsy (absent); [makeIssue] filters those out. *)
Module MakeIssueParams.
Record t : Type := mk {
  data : any;
  path : ParsePath;
  errorMaps : list (option ZodErrorMap);
  issueData : IssueData.t
}.
End MakeIssueParams.

(** [errorMaps.filter((m) => !!m)] *)
Definition filter_truthy {A} (l : list (option A)) : list A := omap id l.

(** The body of the [for (const map of maps)] loop of [makeIssue]. *)
Definition apply_map (fullIssue : ZodIssueOptionalMessage.t) (data : any)
    (errorMessage : string) (map : ZodErrorMap) : string :=
  map fullIssue (ErrorMapCtx.mk errorMessage data).

(** [[...path, ...(issueData.path || [])]] *)
Definition fullPath (path : ParsePath) (issueData : IssueData.t) : ParsePath :=
  path ++ default [] (IssueData.path issueData).

(** [{ ...issueData, path: fullPath }] *)
Definition fullIssue (path : ParsePath) (issueData : IssueData.t)
    : ZodIssueOptionalMessage.t :=
  ZodIssueOptionalMessage.mk (IssueData.code issueData)
    (fullPath path issueData) (IssueData.message issueData)
    (IssueData.others issueData).

Definition makeIssue (params : MakeIssueParams.t) : ZodIssue.t :=
  let data := MakeIssueParams.data params in
  let path := MakeIssueParams.path params in
  let errorMaps := MakeIssueParams.errorMaps params in
  let issueData := MakeIssueParams.issueData params in
  let fullPath := fullPath path issueData in
  let fullIssue := fullIssue path issueData in
  match IssueData.message issueData with
  | Some message =>
      ZodIssue.mk (IssueData.code issueData) fullPath message
        (IssueData.others issueData)
  | None =>
      let maps := rev (filter_truthy errorMaps) in
      let errorMessage := fold_left (apply_map fullIssue data) maps "" in
      ZodIssue.mk (IssueData.code issueData) fullPath errorMessage
        (IssueData.others issueData)
  end.

(** The resolution as the specification words it, over the policies in
    priority order (highest first, an absent one as [None]): a policy is
    given, as [defaultError], the message of the policies below it; an
    absent policy is skipped; with no policy at all the message is empty. *)
Fixpoint spec_resolveMessage (issue : ZodIssueOptionalMessage.t) (data : any)
    (policies : list (option ZodErrorMap)) : string :=
  match policies with
  | [] => ""
  | None :: lower => spec_resolveMessage issue data lower
  | Some policy :: lower =>
      policy issue (ErrorMapCtx.mk (spec_resolveMessage issue data lower) data)
  end.

(** [ctx.common]: one object shared by every context of a parse run. *)
Module Common.
Record t : Type := mk {
  issues : list ZodIssue.t;
  contextualErrorMap : option ZodErrorMap;
  async : bool;
  strict : bool
}.
End Common.

(** [ParseContext] without its [common] field: [common] is the same
    object in every context of a run, so it is passed beside the context
    and returned as [addIssueToContext] leaves it. *)
#[warnings="-register-all"]
Inductive ParseContext : Type := mkParseContext {
  ctx_path : ParsePath;
  ctx_schemaErrorMap : option ZodErrorMap;
  ctx_parent : option ParseContext;
  ctx_data : any;
  ctx_parsedType : string
}.

Section ErrorMaps.

(** [defaultErrorMap] of [locales/en.ts], the process-wide default
    policy.  The catalogue is not part of this file; it is a parameter. *)
Variable defaultErrorMap : ZodErrorMap.

(** The policy that [setErrorMap] of [errors.ts] has installed over the
    default one, if any; a parameter as well. *)
Variable overrideErrorMap : option ZodErrorMap.

(** Modelled from the spec: [getErrorMap] of [errors.ts], which is not
    part of this file.  It returns the process-wide override policy if one
    is installed, and the default policy itself otherwise. *)
Definition getErrorMap : ZodErrorMap :=
  match overrideErrorMap with
  | Some m => m
  | None => defaultErrorMap
  end.

(** [overrideMap === defaultErrorMap ? undefined : defaultErrorMap]: what
    [getErrorMap] returns is the default map itself exactly when nothing
    is installed over it. *)
Definition defaultUnlessOverride : option ZodErrorMap :=
  match overrideErrorMap with
  | Some _ => Some defaultErrorMap
  | None => None
  end.

Definition addIssueToContext (common : Common.t) (ctx : ParseContext)
    (issueData : IssueData.t) : Common.t :=
  let overrideMap := getErrorMap in
  let issue :=
    makeIssue
      (MakeIssueParams.mk (ctx_data ctx) (ctx_path ctx)
         (Some <$> filter_truthy
            [ Common.contextualErrorMap common;
              ctx_schemaErrorMap ctx;
              Some overrideMap;
              defaultUnlessOverride ])
         issueData) in
  Common.mk (Common.issues common ++ [issue])
    (Common.contextualErrorMap common) (Common.async common)
    (Common.strict common).

End ErrorMaps.

(* ===================================================================== *)
(** * mergeArray (lines 93-124) *)
(* ===================================================================== *)

(** The [for] loop of [mergeArray] from index [i] on, with the tracker,
    [arrayValue] and [stripped] as they stand.  The tracker is returned in
    every case; the second component is [None] when the loop leaves the
    function through [return INVALID]. *)
Fixpoint mergeArray_loop (stripInvalidFrom : option Z)
    (status : ParseStatus.t) (arrayValue : list any) (stripped : bool)
    (i : nat) (results : list (SyncParseReturnType any))
    : ParseStatus.t * option (list any * bool) :=
  match results with
  | [] => (status, Some (arrayValue, stripped))
  | s :: rest =>
      let strip := typeof_number stripInvalidFrom in
      if isAborted s then
        if negb strip || index_lt i stripInvalidFrom then (status, None)
        else
          mergeArray_loop stripInvalidFrom (ParseStatus.dirty status)
            arrayValue true (S i) rest
      else
        let status := if isDirty s then ParseStatus.dirty status else status in
        mergeArray_loop stripInvalidFrom status (arrayValue ++ [value_of s])
          stripped (S i) rest
  end.

Definition mergeArray (status : ParseStatus.t)
    (results : list (SyncParseReturnType any))
    (stripInvalidFrom minLength : option Z)
    : ParseStatus.t * SyncParseReturnType any :=
  match mergeArray_loop stripInvalidFrom status [] false 0 results with
  | (status, None) => (status, INVALID)
  | (status, Some (arrayValue, stripped)) =>
      if stripped && truthy_number minLength
         && index_lt (length arrayValue) minLength
      then (status, INVALID)
      else (status, Res (ParseStatus.value status) (array arrayValue))
  end.

(** The values of the results that are not aborted, in their order. *)
Definition kept (results : list (SyncParseReturnType any)) : list any :=
  value_of <$> List.filter (fun s => negb (isAborted s)) results.

(** Whether some result is aborted, and whether some result is aborted or
    dirty. *)
Definition some_aborted (results : list (SyncParseReturnType any)) : bool :=
  existsb isAborted results.
Definition some_degraded (results : list (SyncParseReturnType any)) : bool :=
  existsb (fun s => isAborted s || isDirty s) results.

(* ===================================================================== *)
(** * mergeObjectSync (lines 142-167) *)
(* ===================================================================== *)

(** An element of [pairs].  [key.value] is used as a property name and is
    modelled by the string that names the property. *)
Record SyncPair : Type := mkSyncPair {
  key : SyncParseReturnType string;
  value : SyncParseReturnType any;
  alwaysSet : option bool
}.

(** [ObjectPair] (lines 169-172): a key and a value, no [alwaysSet]. *)
Definition ObjectPair (key : SyncParseReturnType string)
    (value : SyncParseReturnType any) : SyncPair :=
  mkSyncPair key value None.

(** Lines 158-163: the guarded assignment [finalObject[key.value] =
    value.value].  It is reached only with a key that is not aborted, and
    such a key is not [INVALID]. *)
Definition assign (finalObject : gmap string any) (p : SyncPair)
    : gmap string any :=
  match key p with
  | Res _ k =>
      if negb (String.eqb k "__proto__")
         && (defined (value_of (value p)) || truthy_flag (alwaysSet p))
      then <[k := value_of (value p)]> finalObject
      else finalObject
  | INVALID => finalObject
  end.

(** One pass through the body of the [for (const pair of pairs)] loop;
    [None] in the second component is [return INVALID]. *)
Definition mergeObjectSync_body (status : ParseStatus.t)
    (finalObject : gmap string any) (p : SyncPair)
    : ParseStatus.t * option (gmap string any) :=
  if decide (status_of (key p) = Aborted) then (status, None)
  else if decide (status_of (value p) = Aborted) then (status, None)
  else
    let status :=
      if decide (status_of (key p) = Dirty)
      then ParseStatus.dirty status else status in
    let status :=
      if decide (status_of (value p) = Dirty)
      then ParseStatus.dirty status else status in
    (status, Some (assign finalObject p)).

Fixpoint mergeObjectSync_loop (status : ParseStatus.t)
    (finalObject : gmap string any) (pairs : list SyncPair)
    : ParseStatus.t * option (gmap string any) :=
  match pairs with
  | [] => (status, Some finalObject)
  | p :: rest =>
      match mergeObjectSync_body status finalObject p with
      | (status, None) => (status, None)
      | (status, Some finalObject) =>
          mergeObjectSync_loop status finalObject rest
      end
  end.

Definition mergeObjectSync (status : ParseStatus.t) (pairs : list SyncPair)
    : ParseStatus.t * SyncParseReturnType any :=
  match mergeObjectSync_loop status ∅ pairs with
  | (status, None) => (status, INVALID)
  | (status, Some finalObject) =>
      (status, Res (ParseStatus.value status) (object finalObject))
  end.

(** The property a pair names, when its key has a value. *)
Definition key_name (p : SyncPair) : option string :=
  match key p with
  | Res _ k => Some k
  | INVALID => None
  end.

(** Whether the key or the value of a pair is aborted, and whether one of
    them is dirty. *)
Definition failed_side (p : SyncPair) : bool :=
  bool_decide (status_of (key p) = Aborted)
  || bool_decide (status_of (value p) = Aborted).
Definition dirty_side (p : SyncPair) : bool :=
  bool_decide (status_of (key p) = Dirty)
  || bool_decide (status_of (value p) = Dirty).

(* ===================================================================== *)
(** * mergeObjectAsync (lines 126-140) *)
(* ===================================================================== *)

(** The one visible effect of an [async] function: suspending on a
    pending promise until it is fulfilled. *)
Variant awaitE : Type -> Type :=
| Await {T} (p : Promise T) : awaitE (SyncParseReturnType T).

(** [await x]: a value that is not a promise is handed back after a
    silent step; a promise suspends the function. *)
Definition await {T} (x : ParseReturnType T)
    : itree awaitE (SyncParseReturnType T) :=
  match x with
  | Sync r => Tau (Ret r)
  | Async p => ITree.trigger (Await p)
  end.

(** An element of the [pairs] of [mergeObjectAsync].  Its declared type
    lists [key] and [value] only; an object with further properties is
    assignable to it, and [extra_alwaysSet] records whether the caller's
    object carries an [alwaysSet] of its own. *)
Record AsyncPair : Type := mkAsyncPair {
  async_key : ParseReturnType string;
  async_value : ParseReturnType any;
  extra_alwaysSet : option bool
}.

(** The [for (const pair of pairs)] loop, with [syncPairs] as it stands. *)
Fixpoint mergeObjectAsync_loop (syncPairs : list SyncPair)
    (pairs : list AsyncPair) : itree awaitE (list SyncPair) :=
  match pairs with
  | [] => Ret syncPairs
  | p :: rest =>
      ITree.bind (await (async_key p)) (fun key =>
      ITree.bind (await (async_value p)) (fun value =>
      mergeObjectAsync_loop (syncPairs ++ [ObjectPair key value]) rest))
  end.

Definition mergeObjectAsync (status : ParseStatus.t) (pairs : list AsyncPair)
    : itree awaitE (ParseStatus.t * SyncParseReturnType any) :=
  ITree.bind (mergeObjectAsync_loop [] pairs) (fun syncPairs =>
  Ret (mergeObjectSync status syncPairs)).

(** The scheduler: an awaited promise is entered in the log of
    suspensions and answered with its fulfilment. *)
Definition fulfil : awaitE ~> Monads.stateT (list nat) (itree void1) :=
  fun _ e log =>
    match e with
    | Await p => Ret (log ++ [promise_id p], fulfilment p)
    end.

(** What a result resolves to. *)
Definition resolved {T} (x : ParseReturnType T) : SyncParseReturnType T :=
  match x with
  | Sync r => r
  | Async p => fulfilment p
  end.

(** The promises a result makes its awaiter wait for. *)
Definition pending {T} (x : ParseReturnType T) : list nat :=
  match x with
  | Sync _ => []
  | Async p => [promise_id p]
  end.

(** The order of suspensions the specification prescribes: pair by pair,
    the key before the value. *)
Definition await_order (pairs : list AsyncPair) : list nat :=
  flat_map (fun p => pending (async_key p) ++ pending (async_value p))
    pairs.

(** The resolved pair that the loop pushes: [{ key, value }]. *)
Definition resolved_pair (p : AsyncPair) : SyncPair :=
  ObjectPair (resolved (async_key p)) (resolved (async_value p)).

(** The resolved triple of the specification: the pair's own [alwaysSet]
    kept beside the resolved key and value. *)
Definition resolved_triple (p : AsyncPair) : SyncPair :=
  mkSyncPair (resolved (async_key p)) (resolved (async_value p))
    (extra_alwaysSet p).

(* ===================================================================== *)
(** * Notions used to state further properties *)
(* ===================================================================== *)

(** Whether the key and the value of a pair are both valid. *)
Definition valid_sides (p : SyncPair) : bool :=
  isValid (key p) && isValid (value p).


(** Whether a call of [dirty()], or of [abort()], occurs in a sequence. *)
Definition calls_abort (cs : list ParseStatus.call) : bool :=
  existsb (fun c => match c with ParseStatus.call_abort => true | _ => false end)
    cs.
Definition calls_dirty (cs : list ParseStatus.call) : bool :=
  existsb (fun c => match c with ParseStatus.call_dirty => true | _ => false end)
    cs.

(** A run of reports: [addIssueToContext] called once for each entry, in
    order, each with its own context, all on the shared [common]. *)
Definition addIssuesToContext (defaultErrorMap : ZodErrorMap)
    (overrideErrorMap : option ZodErrorMap) (common : Common.t)
    (reports : list (ParseContext * IssueData.t)) : Common.t :=
  fold_left
    (fun common report =>
       addIssueToContext defaultErrorMap overrideErrorMap common
         (fst report) (snd report))
    reports common.

(* ===================================================================== *)
(** * The definitions at work *)
(* ===================================================================== *)

Example mergeArray_all_valid :
  mergeArray ParseStatus.new [OK (number 1); OK (str "b")] None None
  = (ParseStatus.new, Res Valid (array [number 1; str "b"])).
Proof. reflexivity. Qed.

Example mergeArray_one_dirty :
  mergeArray ParseStatus.new [OK (number 1); DIRTY (number 2)] None None
  = (ParseStatus.mk Dirty, Res Dirty (array [number 1; number 2])).
Proof. reflexivity. Qed.

Example mergeArray_failed_before_bound :
  mergeArray ParseStatus.new [INVALID; OK (number 2)] (Some 1) None
  = (ParseStatus.new, INVALID).
Proof. reflexivity. Qed.

Example mergeArray_stripped_too_short :
  mergeArray ParseStatus.new [OK (number 1); INVALID; INVALID] (Some 1) (Some 2)
  = (ParseStatus.mk Dirty, INVALID).
Proof. reflexivity. Qed.

Example mergeArray_aborted_tracker :
  mergeArray (ParseStatus.mk Aborted) [OK (number 1)] None None
  = (ParseStatus.mk Aborted, Res Aborted (array [number 1])).
Proof. reflexivity. Qed.

Example mergeObjectSync_two_keys :
  mergeObjectSync ParseStatus.new
    [ mkSyncPair (OK "a") (OK (number 1)) None;
      mkSyncPair (OK "b") (DIRTY (number 2)) None ]
  = (ParseStatus.mk Dirty,
     Res Dirty (object (<["b" := number 2]> (<["a" := number 1]> ∅)))).
Proof. reflexivity. Qed.

Example mergeObjectSync_absent_values :
  mergeObjectSync ParseStatus.new
    [ mkSyncPair (OK "a") (OK undefined) None;
      mkSyncPair (OK "b") (OK undefined) (Some false);
      mkSyncPair (OK "c") (OK undefined) (Some true) ]
  = (ParseStatus.new, Res Valid (object (<["c" := undefined]> ∅))).
Proof. reflexivity. Qed.

Example mergeObjectSync_proto_key :
  mergeObjectSync ParseStatus.new
    [ mkSyncPair (OK "__proto__") (OK (number 1)) (Some true) ]
  = (ParseStatus.new, Res Valid (object ∅)).
Proof. reflexivity. Qed.

Example makeIssue_two_maps :
  makeIssue
    (MakeIssueParams.mk (number 5) [path_key "age"]
       [ Some (fun _ c => String.append (ErrorMapCtx.defaultError c) "!");
         None;
         Some (fun _ _ => "Expected string") ]
       (IssueData.mk "invalid_type" (Some [path_index 0]) None ∅))
  = ZodIssue.mk "invalid_type" [path_key "age"; path_index 0]
      "Expected string!" ∅.
Proof. reflexivity. Qed.

(* ===================================================================== *)
(** * Properties of the tracker *)
(* ===================================================================== *)

Section Tracker.

Import ParseStatus.

Lemma dirty_dirty (s : t) : dirty (dirty s) = dirty s.
Proof. by destruct s as [[]]. Qed.

Lemma abort_Aborted (s : t) : abort s = mk Aborted.
Proof. by destruct s as [[]]. Qed.

Lemma rank_dirty (s : t) :
  (rank (value s) <= rank (value (dirty s)))%nat.
Proof. destruct s as [[]]; compute; lia. Qed.

Lemma rank_abort (s : t) :
  (rank (value s) <= rank (value (abort s)))%nat.
Proof. destruct s as [[]]; compute; lia. Qed.

Lemma run_app (s : t) (cs ds : list call) :
  run s (cs ++ ds) = run (run s cs) ds.
Proof. unfold run. by rewrite fold_left_app. Qed.

Lemma run_Aborted (cs : list call) : run (mk Aborted) cs = mk Aborted.
Proof. induction cs as [|[] cs IH]; cbn; auto. Qed.

Lemma rank_run (cs : list call) (s : t) :
  (rank (value s) <= rank (value (run s cs)))%nat.
Proof.
  revert s. induction cs as [|c cs IH]; intros s; [done|].
  cbn. etrans; [|apply IH].
  destruct c; [apply rank_dirty | apply rank_abort].
Qed.

End Tracker.

(** C9. The tracker only moves forward along valid < dirty < aborted.
    [dirty()] takes valid to dirty and leaves dirty and aborted as they
    are; [abort()] takes every state to aborted and is idempotent; no call,
    and no sequence of calls, lowers the status; and after a sequence of
    calls that contains an [abort()] the status is aborted, whatever
    ([dirty()] calls included) follows it. *)
Theorem ParseStatus_monotone :
  ParseStatus.dirty (ParseStatus.mk Valid) = ParseStatus.mk Dirty
  /\ ParseStatus.dirty (ParseStatus.mk Dirty) = ParseStatus.mk Dirty
  /\ ParseStatus.dirty (ParseStatus.mk Aborted) = ParseStatus.mk Aborted
  /\ (forall s, ParseStatus.abort s = ParseStatus.mk Aborted)
  /\ (forall s, ParseStatus.abort (ParseStatus.abort s) = ParseStatus.abort s)
  /\ (forall s c,
        (rank (ParseStatus.value s)
         <= rank (ParseStatus.value (ParseStatus.perform s c)))%nat)
  /\ (forall s cs,
        (rank (ParseStatus.value s)
         <= rank (ParseStatus.value (ParseStatus.run s cs)))%nat)
  /\ (forall s before after,
        ParseStatus.run s (before ++ ParseStatus.call_abort :: after)
        = ParseStatus.mk Aborted)
  /\ (forall s before after,
        ParseStatus.dirty
          (ParseStatus.run s (before ++ ParseStatus.call_abort :: after))
        = ParseStatus.run s (before ++ ParseStatus.call_abort :: after)).
Proof.
  assert (Hrun : forall s before after,
    ParseStatus.run s (before ++ ParseStatus.call_abort :: after)
    = ParseStatus.mk Aborted).
  { intros s before after. rewrite run_app. cbn.
    change (fold_left ParseStatus.perform after ?x) with (ParseStatus.run x after).
    rewrite abort_Aborted. apply run_Aborted. }
  repeat split; try reflexivity.
  - apply abort_Aborted.
  - intros s. by rewrite !abort_Aborted.
  - intros s []; [apply rank_dirty | apply rank_abort].
  - intros s cs. apply rank_run.
  - exact Hrun.
  - intros s before after. by rewrite Hrun.
Qed.

(* ===================================================================== *)
(** * Properties of the result predicates *)
(* ===================================================================== *)

Lemma isValid_status {T} (x : SyncParseReturnType T) :
  isValid x = true <-> status_of x = Valid.
Proof. unfold isValid. apply bool_decide_eq_true. Qed.

(** C2, as stated, fails: [isValid] is false on a dirty result. *)
Lemma isValid_DIRTY_counterexample :
  ~ (isValid (OK (str "a")) = true
     /\ isValid (DIRTY (str "a")) = true
     /\ isValid (@INVALID any) = false).
Proof. intros (_ & H & _). discriminate H. Qed.

(** C2, amended. [isValid] is true exactly on the results whose status is
    valid: true on [OK v], false on [DIRTY v] and on [INVALID]. *)
Theorem isValid_exactly_OK :
  (forall T (x : SyncParseReturnType T), isValid x = true <-> status_of x = Valid)
  /\ (forall T (v : T), isValid (OK v) = true)
  /\ (forall T (v : T), isValid (DIRTY v) = false)
  /\ (forall T, isValid (@INVALID T) = false).
Proof.
  split; [intros T x; apply isValid_status|].
  repeat split.
Qed.

(* ===================================================================== *)
(** * Properties of mergeArray *)
(* ===================================================================== *)

Lemma aborts_at_Some (k : Z) (i : nat) :
  aborts_at (Some k) i = true <-> Z.of_nat i < k.
Proof. cbn. apply Z.ltb_lt. Qed.

Lemma strips_at_Some (k : Z) (i : nat) :
  aborts_at (Some k) i = false <-> k <= Z.of_nat i.
Proof. cbn. apply Z.ltb_ge. Qed.

(** The loop over a concatenation runs the first part, then the second
    from where the first left off, unless the first part returned. *)
Lemma mergeArray_loop_app strip (xs ys : list (SyncParseReturnType any)) :
  forall status arrayValue stripped i,
    mergeArray_loop strip status arrayValue stripped i (xs ++ ys) =
    match mergeArray_loop strip status arrayValue stripped i xs with
    | (status', None) => (status', None)
    | (status', Some (arrayValue', stripped')) =>
        mergeArray_loop strip status' arrayValue' stripped'
          (i + length xs) ys
    end.
Proof.
  induction xs as [|s xs IH]; intros status arrayValue stripped i.
  - cbn [app mergeArray_loop length]. by rewrite Nat.add_0_r.
  - cbn [app mergeArray_loop length].
    replace (i + S (length xs))%nat with (S i + length xs)%nat by lia.
    destruct (isAborted s).
    + destruct (aborts_at strip i); [done|]. apply IH.
    + apply IH.
Qed.

(** An aborted result at an index where nothing is stripped ends the
    loop, with the tracker as it stands. *)
Lemma mergeArray_loop_abort strip s rest status arrayValue stripped i :
  isAborted s = true -> aborts_at strip i = true ->
  mergeArray_loop strip status arrayValue stripped i (s :: rest)
  = (status, None).
Proof. intros Hs Hi. cbn [mergeArray_loop]. by rewrite Hs, Hi. Qed.

Lemma kept_app (xs ys : list (SyncParseReturnType any)) :
  kept (xs ++ ys) = kept xs ++ kept ys.
Proof. unfold kept. by rewrite List.filter_app, fmap_app. Qed.

Lemma kept_cons_aborted s (xs : list (SyncParseReturnType any)) :
  isAborted s = true -> kept (s :: xs) = kept xs.
Proof. intros H. unfold kept. cbn. by rewrite H. Qed.

Lemma kept_cons_usable s (xs : list (SyncParseReturnType any)) :
  isAborted s = false -> kept (s :: xs) = value_of s :: kept xs.
Proof. intros H. unfold kept. cbn. by rewrite H. Qed.

(** When every aborted result sits at an index that is stripped, the
    loop runs to its end: the tracker has been marked dirty if some result
    was aborted or dirty, the values of the other results have been pushed
    in order, and [stripped] records whether a result was aborted. *)
Lemma mergeArray_loop_complete strip
    (results : list (SyncParseReturnType any)) :
  forall status arrayValue stripped i,
    (forall j s, results !! j = Some s -> isAborted s = true ->
                 aborts_at strip (i + j) = false) ->
    mergeArray_loop strip status arrayValue stripped i results =
    (if some_degraded results then ParseStatus.dirty status else status,
     Some (arrayValue ++ kept results, stripped || some_aborted results)).
Proof.
  induction results as [|s results IH]; intros status arrayValue stripped i H.
  - cbn. by rewrite ?app_nil_r, ?orb_false_r.
  - assert (Hrest : forall j s', results !! j = Some s' -> isAborted s' = true ->
                      aborts_at strip (S i + j) = false).
    { intros j s' Hj Hs'. specialize (H (S j) s' Hj Hs').
      by replace (S i + j)%nat with (i + S j)%nat by lia. }
    cbn [mergeArray_loop some_degraded some_aborted existsb].
    destruct (isAborted s) eqn:Hs.
    + specialize (H 0%nat s eq_refl Hs). rewrite Nat.add_0_r in H.
      rewrite H, (IH _ _ _ _ Hrest), kept_cons_aborted by done.
      cbn [orb]. fold (some_degraded results) (some_aborted results).
      rewrite dirty_dirty, orb_true_r.
      by destruct (some_degraded results).
    + rewrite (IH _ _ _ _ Hrest), kept_cons_usable by done.
      fold (some_degraded results) (some_aborted results).
      rewrite <- app_assoc. cbn [orb app].
      destruct (isDirty s); [|done].
      rewrite dirty_dirty. by destruct (some_degraded results).
Qed.

(** The comparison with [minLength] fails for [0] as it does for an
    absent argument, so the truthiness test adds nothing to it. *)
Lemma minLength_test (n : nat) (minLength : option Z) :
  truthy_number minLength && index_lt n minLength = index_lt n minLength.
Proof.
  destruct minLength as [m|]; [|done]. cbn.
  destruct (Z.eqb_spec m 0) as [->|]; [|done].
  cbn. symmetry. apply Z.ltb_ge. lia.
Qed.

(** [mergeArray] on results none of which ends the loop. *)
Lemma mergeArray_complete status results strip minLength :
  (forall j s, results !! j = Some s -> isAborted s = true ->
               aborts_at strip j = false) ->
  mergeArray status results strip minLength =
  let status' :=
    if some_degraded results then ParseStatus.dirty status else status in
  (status',
   if some_aborted results && index_lt (length (kept results)) minLength
   then INVALID
   else Res (ParseStatus.value status') (array (kept results))).
Proof.
  intros H. unfold mergeArray.
  rewrite (mergeArray_loop_complete strip results status [] false 0%nat) by done.
  cbn [app orb]. rewrite <- andb_assoc, minLength_test.
  by destruct (_ && _).
Qed.

(** [mergeArray] on results one of which is aborted at an index where
    nothing is stripped. *)
Lemma mergeArray_abort status before s after strip minLength :
  isAborted s = true -> aborts_at strip (length before) = true ->
  mergeArray status (before ++ s :: after) strip minLength =
  (fst (mergeArray_loop strip status [] false 0 before), INVALID).
Proof.
  intros Hs Hi. unfold mergeArray. rewrite mergeArray_loop_app.
  destruct (mergeArray_loop strip status [] false 0 before)
    as [status' [[arrayValue' stripped']|]]; [|done].
  by rewrite mergeArray_loop_abort.
Qed.

Lemma aborts_at_spec strip (i : nat) :
  strip = None \/ (exists k, strip = Some k /\ Z.of_nat i < k) ->
  aborts_at strip i = true.
Proof.
  intros [->|(k & -> & Hk)]; [done|]. by apply aborts_at_Some.
Qed.

Lemma strips_at_spec strip (i : nat) :
  (exists k, strip = Some k /\ k <= Z.of_nat i) ->
  aborts_at strip i = false.
Proof. intros (k & -> & Hk). by apply strips_at_Some. Qed.

(** C4. A failed (aborted) result at an index where stripping is disabled,
    or that lies before [stripInvalidFrom], makes [mergeArray] return
    [INVALID], and nothing after that result has any influence on what the
    call returns or on the tracker.  A failed result at an index at or
    after [stripInvalidFrom] (no failed result lying before that bound)
    leaves the tracker marked dirty and contributes nothing to the
    assembled array: the array holds the values of the results before it
    followed by the values of the results after it. *)
Theorem mergeArray_failed_element :
  (forall status before s after strip minLength,
      isAborted s = true ->
      strip = None
      \/ (exists k, strip = Some k /\ Z.of_nat (length before) < k) ->
      snd (mergeArray status (before ++ s :: after) strip minLength) = INVALID
      /\ mergeArray status (before ++ s :: after) strip minLength
         = mergeArray status (before ++ [s]) strip minLength)
  /\ (forall status before s after k minLength,
      isAborted s = true ->
      k <= Z.of_nat (length before) ->
      (forall j s', (before ++ s :: after) !! j = Some s' ->
                    isAborted s' = true -> k <= Z.of_nat j) ->
      mergeArray status (before ++ s :: after) (Some k) minLength =
      (ParseStatus.dirty status,
       if index_lt (length (kept before ++ kept after)) minLength
       then INVALID
       else Res (ParseStatus.value (ParseStatus.dirty status))
              (array (kept before ++ kept after)))).
Proof.
  split.
  - intros status before s after strip minLength Hs Hi.
    apply aborts_at_spec in Hi.
    rewrite !mergeArray_abort by done. done.
  - intros status before s after k minLength Hs Hk Hall.
    rewrite mergeArray_complete.
    + assert (Hd : some_degraded (before ++ s :: after) = true).
      { unfold some_degraded. rewrite existsb_app. cbn. rewrite Hs.
        cbn. apply orb_true_r. }
      assert (Ha : some_aborted (before ++ s :: after) = true).
      { unfold some_aborted. rewrite existsb_app. cbn. rewrite Hs.
        apply orb_true_r. }
      cbn zeta. rewrite Hd, Ha, kept_app, kept_cons_aborted by done. done.
    + intros j s' Hj Hs'. apply strips_at_Some. eauto.
Qed.

(** A run of C4: with nothing stripped the second result ends the merge;
    stripped from index 1 it is dropped and the tracker is dirty. *)
Lemma mergeArray_failed_element_witness :
  snd (mergeArray ParseStatus.new
         ([OK (number 1)] ++ INVALID :: [OK (number 2)]) None None) = INVALID
  /\ mergeArray ParseStatus.new
       ([OK (number 1)] ++ INVALID :: [OK (number 2)]) (Some 1) None
     = (ParseStatus.mk Dirty, Res Dirty (array [number 1; number 2])).
Proof.
  split.
  - apply (proj1 mergeArray_failed_element ParseStatus.new
             [OK (number 1)] INVALID [OK (number 2)] None None).
    + reflexivity.
    + left. reflexivity.
  - apply (proj2 mergeArray_failed_element ParseStatus.new
             [OK (number 1)] INVALID [OK (number 2)] 1 None).
    + reflexivity.
    + simpl. lia.
    + intros [|[|[|j]]] s' Hj Hs'; simpl in Hj; inversion Hj; subst;
        try discriminate Hs'; simpl; lia.
Defined.

(** C5. When the loop of [mergeArray] runs to its end (every failed
    result sits at a stripped index): if some result was stripped,
    [minLength] is given and the assembled array is shorter than
    [minLength], the call returns [INVALID]; in every other case (nothing
    stripped, or no [minLength], or an array of at least [minLength]
    values) it returns the tracker's final status with the assembled
    array. *)
Theorem mergeArray_minLength status results strip minLength :
  (forall j s, results !! j = Some s -> isAborted s = true ->
               exists k, strip = Some k /\ k <= Z.of_nat j) ->
  let out := mergeArray status results strip minLength in
  (some_aborted results = true ->
   (exists m, minLength = Some m /\ Z.of_nat (length (kept results)) < m) ->
   snd out = INVALID)
  /\ (some_aborted results = false
      \/ minLength = None
      \/ (exists m, minLength = Some m /\ m <= Z.of_nat (length (kept results))) ->
      snd out = Res (ParseStatus.value (fst out)) (array (kept results))).
Proof.
  intros H out. subst out.
  rewrite mergeArray_complete
    by (intros j s Hj Hs; apply strips_at_spec; eauto).
  cbn zeta. cbn [fst snd]. split.
  - intros -> (m & -> & Hm). cbn.
    by rewrite (proj2 (Z.ltb_lt _ _) Hm).
  - intros [-> | [-> | (m & -> & Hm)]]; [done | by rewrite andb_false_r |].
    cbn. rewrite (proj2 (Z.ltb_ge _ _) Hm). by rewrite andb_false_r.
Qed.

(** A run of C5: the one result at a stripped index is failed; with
    [minLength] 2 the single value left is too few, with [minLength] 1 it
    is enough. *)
Lemma mergeArray_minLength_witness :
  snd (mergeArray ParseStatus.new [OK (number 1); INVALID] (Some 1) (Some 2))
  = INVALID
  /\ snd (mergeArray ParseStatus.new [OK (number 1); INVALID] (Some 1) (Some 1))
     = Res Dirty (array [number 1]).
Proof.
  assert (H : forall j s, [OK (number 1); INVALID] !! j = Some s ->
                isAborted s = true ->
                exists k, Some 1 = Some k /\ k <= Z.of_nat j).
  { intros [|[|j]] s Hj Hs; simpl in Hj; inversion Hj; subst;
      try discriminate Hs. exists 1. split; [reflexivity | simpl; lia]. }
  split.
  - apply (proj1 (mergeArray_minLength ParseStatus.new
                    [OK (number 1); INVALID] (Some 1) (Some 2) H)).
    + reflexivity.
    + exists 2. split; [reflexivity | simpl; lia].
  - apply (proj2 (mergeArray_minLength ParseStatus.new
                    [OK (number 1); INVALID] (Some 1) (Some 1) H)).
    right. right. exists 1. split; [reflexivity | simpl; lia].
Defined.

(* ===================================================================== *)
(** * Properties of mergeObjectSync *)
(* ===================================================================== *)

Lemma mergeObjectSync_body_failed status finalObject p :
  failed_side p = true ->
  mergeObjectSync_body status finalObject p = (status, None).
Proof.
  unfold failed_side, mergeObjectSync_body. intros H.
  destruct (decide (status_of (key p) = Aborted)); [done|].
  destruct (decide (status_of (value p) = Aborted)); [done|].
  rewrite !bool_decide_eq_false_2 in H by done. done.
Qed.

Lemma mergeObjectSync_body_usable status finalObject p :
  failed_side p = false ->
  mergeObjectSync_body status finalObject p =
  (if dirty_side p then ParseStatus.dirty status else status,
   Some (assign finalObject p)).
Proof.
  unfold failed_side, dirty_side, mergeObjectSync_body. intros H.
  apply orb_false_elim in H as [Hk Hv].
  apply bool_decide_eq_false in Hk, Hv.
  destruct (decide (status_of (key p) = Aborted)); [done|].
  destruct (decide (status_of (value p) = Aborted)); [done|].
  destruct (decide (status_of (key p) = Dirty)) as [Hkd|Hkd];
    destruct (decide (status_of (value p) = Dirty)) as [Hvd|Hvd];
    rewrite ?(bool_decide_eq_true_2 _ Hkd), ?(bool_decide_eq_true_2 _ Hvd),
      ?(bool_decide_eq_false_2 _ Hkd), ?(bool_decide_eq_false_2 _ Hvd);
    cbn [orb]; by rewrite ?dirty_dirty.
Qed.

Lemma mergeObjectSync_loop_app (xs ys : list SyncPair) :
  forall status finalObject,
    mergeObjectSync_loop status finalObject (xs ++ ys) =
    match mergeObjectSync_loop status finalObject xs with
    | (status', None) => (status', None)
    | (status', Some finalObject') =>
        mergeObjectSync_loop status' finalObject' ys
    end.
Proof.
  induction xs as [|p xs IH]; intros status finalObject; [done|].
  cbn [app mergeObjectSync_loop].
  destruct (mergeObjectSync_body status finalObject p) as [status' [o'|]];
    [apply IH | done].
Qed.

(** With no failed side among the pairs the loop runs to its end: the
    tracker has been marked dirty if some side was dirty, and the object
    is what the guarded assignments, in order, make of it. *)
Lemma mergeObjectSync_loop_complete (pairs : list SyncPair) :
  forall status finalObject,
    existsb failed_side pairs = false ->
    mergeObjectSync_loop status finalObject pairs =
    (if existsb dirty_side pairs then ParseStatus.dirty status else status,
     Some (fold_left assign pairs finalObject)).
Proof.
  induction pairs as [|p pairs IH]; intros status finalObject H; [done|].
  cbn in H. apply orb_false_elim in H as [Hp H].
  cbn [mergeObjectSync_loop existsb fold_left].
  rewrite mergeObjectSync_body_usable, IH by done.
  destruct (dirty_side p); cbn [orb]; [|done].
  rewrite dirty_dirty. by destruct (existsb dirty_side pairs).
Qed.

(** With a failed side somewhere the loop returns. *)
Lemma mergeObjectSync_loop_failed (pairs : list SyncPair) :
  forall status finalObject,
    existsb failed_side pairs = true ->
    snd (mergeObjectSync_loop status finalObject pairs) = None.
Proof.
  induction pairs as [|p pairs IH]; intros status finalObject H; [done|].
  cbn [mergeObjectSync_loop].
  destruct (failed_side p) eqn:Hp.
  - by rewrite mergeObjectSync_body_failed.
  - rewrite mergeObjectSync_body_usable by done. apply IH.
    cbn in H. by rewrite Hp in H.
Qed.

Lemma mergeObjectSync_complete status pairs :
  existsb failed_side pairs = false ->
  mergeObjectSync status pairs =
  let status' :=
    if existsb dirty_side pairs then ParseStatus.dirty status else status in
  (status', Res (ParseStatus.value status') (object (fold_left assign pairs ∅))).
Proof.
  intros H. unfold mergeObjectSync.
  by rewrite mergeObjectSync_loop_complete.
Qed.

Lemma mergeObjectSync_failed status pairs :
  existsb failed_side pairs = true ->
  snd (mergeObjectSync status pairs) = INVALID.
Proof.
  intros H. unfold mergeObjectSync.
  pose proof (mergeObjectSync_loop_failed pairs status ∅ H) as Hl.
  destruct (mergeObjectSync_loop status ∅ pairs) as [status' [o|]];
    [discriminate Hl | done].
Qed.

Lemma mergeObjectSync_tracker status pairs :
  fst (mergeObjectSync status pairs)
  = fst (mergeObjectSync_loop status ∅ pairs).
Proof.
  unfold mergeObjectSync.
  by destruct (mergeObjectSync_loop status ∅ pairs) as [status' [o|]].
Qed.

(** [mergeObjectSync] on pairs one of which has a failed side: the call
    returns [INVALID] with the tracker as the pairs before left it. *)
Lemma mergeObjectSync_abort status before p after :
  failed_side p = true ->
  mergeObjectSync status (before ++ p :: after) =
  (fst (mergeObjectSync status before), INVALID).
Proof.
  intros Hp. rewrite mergeObjectSync_tracker.
  unfold mergeObjectSync. rewrite mergeObjectSync_loop_app.
  destruct (mergeObjectSync_loop status ∅ before) as [status' [o|]]; [|done].
  cbn [mergeObjectSync_loop]. by rewrite mergeObjectSync_body_failed.
Qed.

(** The guarded assignments never create a property named [__proto__],
    and leave alone every property that no pair names. *)
Lemma assign_proto finalObject p :
  finalObject !! "__proto__" = None -> assign finalObject p !! "__proto__" = None.
Proof.
  intros H. unfold assign. destruct (key p) as [|ks k]; [done|].
  destruct (String.eqb_spec k "__proto__") as [->|Hne]; [done|].
  cbn [negb andb]. destruct (_ || _); [|done].
  by rewrite lookup_insert_ne.
Qed.


Lemma fold_assign_proto (pairs : list SyncPair) :
  forall finalObject,
    finalObject !! "__proto__" = None ->
    fold_left assign pairs finalObject !! "__proto__" = None.
Proof.
  induction pairs as [|p pairs IH]; intros finalObject H; [done|].
  cbn. by apply IH, assign_proto.
Qed.


Lemma assign_named_proto finalObject p :
  key_name p = Some "__proto__" -> assign finalObject p = finalObject.
Proof.
  unfold assign, key_name. destruct (key p) as [|ks k]; [done|].
  by intros [= ->].
Qed.

Lemma fold_assign_filter (pairs : list SyncPair) :
  forall finalObject,
    fold_left assign
      (filter (fun p => key_name p <> Some "__proto__") pairs) finalObject
    = fold_left assign pairs finalObject.
Proof.
  induction pairs as [|p pairs IH]; intros finalObject; [done|].
  destruct (decide (key_name p = Some "__proto__")) as [Hp|Hp].
  - rewrite filter_cons_False by auto. cbn.
    by rewrite assign_named_proto.
  - rewrite filter_cons_True by done. cbn. apply IH.
Qed.

Lemma existsb_filter_false {A} (f : A -> bool) (P : A -> Prop)
    `{forall x, Decision (P x)} (l : list A) :
  existsb f l = false -> existsb f (filter P l) = false.
Proof.
  induction l as [|x l IH]; [done|].
  intros Hxl. cbn in Hxl. apply orb_false_elim in Hxl as [Hx Hl].
  destruct (decide (P x)).
  - rewrite filter_cons_True by done. cbn. by rewrite Hx, IH.
  - rewrite filter_cons_False by done. by apply IH.
Qed.

Lemma truthy_flag_true (b : option bool) :
  truthy_flag b = true <-> b = Some true.
Proof. destruct b as [[]|]; cbn; split; intros H; done || discriminate H. Qed.


Lemma value_dirty_Aborted (s : ParseStatus.t) :
  ParseStatus.value (ParseStatus.dirty s) = Aborted
  <-> ParseStatus.value s = Aborted.
Proof. destruct s as [[]]; compute; split; intros H; done || discriminate H. Qed.

(** C1. Whatever the pairs, an object returned by [mergeObjectSync] has no
    own property named [__proto__]; and the pairs whose key is
    [__proto__] leave no trace in it, whatever their status and their
    [alwaysSet]: without them the same object is assembled. *)
Theorem mergeObjectSync_no_proto status pairs status' s v :
  mergeObjectSync status pairs = (status', Res s v) ->
  exists finalObject,
    v = object finalObject
    /\ finalObject !! "__proto__" = None
    /\ exists s',
         snd (mergeObjectSync status
                (filter (fun p => key_name p <> Some "__proto__") pairs))
         = Res s' (object finalObject).
Proof.
  intros H. destruct (existsb failed_side pairs) eqn:Hf.
  - apply mergeObjectSync_failed with (status := status) in Hf.
    rewrite H in Hf. discriminate Hf.
  - rewrite mergeObjectSync_complete in H by done. cbn zeta in H.
    injection H as _ _ <-.
    exists (fold_left assign pairs ∅). split; [done|]. split.
    + by apply fold_assign_proto.
    + rewrite mergeObjectSync_complete by by apply existsb_filter_false.
      cbn zeta. cbn [snd]. rewrite fold_assign_filter. eauto.
Qed.

(** A run of C1: a [__proto__] key with a present value and [alwaysSet]. *)
Lemma mergeObjectSync_no_proto_witness :
  exists finalObject,
    object (<["a" := number 1]> ∅) = object finalObject
    /\ finalObject !! "__proto__" = None
    /\ exists s',
         snd (mergeObjectSync ParseStatus.new
                (filter (fun p => key_name p <> Some "__proto__")
                   [ mkSyncPair (OK "__proto__") (DIRTY (number 7)) (Some true);
                     mkSyncPair (OK "a") (OK (number 1)) None ]))
         = Res s' (object finalObject).
Proof.
  apply (mergeObjectSync_no_proto ParseStatus.new
           [ mkSyncPair (OK "__proto__") (DIRTY (number 7)) (Some true);
             mkSyncPair (OK "a") (OK (number 1)) None ]
           (ParseStatus.mk Dirty) Dirty (object (<["a" := number 1]> ∅))).
  reflexivity.
Defined.

(** C6. [mergeObjectSync] goes through its pairs in order.  At the first
    pair with a failed (aborted) key or value it returns [INVALID], the
    tracker being as the pairs before left it; the pairs after it have no
    influence, nor has the rest of the failing pair.  When no pair has a
    failed side the call does not return [INVALID]: it returns the
    tracker's status with the assembled object, and that status is aborted
    only for a tracker that was aborted when the call began. *)
Theorem mergeObjectSync_short_circuit :
  (forall status before p after,
      existsb failed_side before = false ->
      failed_side p = true ->
      mergeObjectSync status (before ++ p :: after)
      = (if existsb dirty_side before
         then ParseStatus.dirty status else status, INVALID))
  /\ (forall status pairs,
      existsb failed_side pairs = false ->
      let out := mergeObjectSync status pairs in
      snd out <> INVALID
      /\ snd out
         = Res (ParseStatus.value (fst out)) (object (fold_left assign pairs ∅))
      /\ (isAborted (snd out) = true <-> ParseStatus.value status = Aborted)).
Proof.
  split.
  - intros status before p after Hb Hp.
    rewrite mergeObjectSync_abort, mergeObjectSync_complete by done. done.
  - intros status pairs H out. subst out.
    rewrite mergeObjectSync_complete by done. cbn zeta. cbn [fst snd].
    split; [done|]. split; [done|].
    unfold isAborted. rewrite bool_decide_eq_true. cbn [status_of].
    destruct (existsb dirty_side pairs); [apply value_dirty_Aborted | done].
Qed.

(** A run of C6: the second pair has a failed value, the first a dirty
    one; and three pairs without a failed side. *)
Lemma mergeObjectSync_short_circuit_witness :
  mergeObjectSync ParseStatus.new
    ([mkSyncPair (OK "a") (DIRTY (number 1)) None]
       ++ mkSyncPair (OK "b") INVALID None
       :: [mkSyncPair (OK "c") (OK (number 3)) None])
  = (ParseStatus.mk Dirty, INVALID)
  /\ snd (mergeObjectSync ParseStatus.new
            [mkSyncPair (OK "a") (OK (number 1)) None]) <> INVALID.
Proof.
  split.
  - apply (proj1 mergeObjectSync_short_circuit ParseStatus.new
             [mkSyncPair (OK "a") (DIRTY (number 1)) None]
             (mkSyncPair (OK "b") INVALID None)
             [mkSyncPair (OK "c") (OK (number 3)) None]);
      reflexivity.
  - apply (proj2 mergeObjectSync_short_circuit ParseStatus.new
             [mkSyncPair (OK "a") (OK (number 1)) None]).
    reflexivity.
Defined.




(** C10. A merge that returns [INVALID] because of a failed child leaves
    the caller's tracker as the earlier children made it: when one of them
    was dirty (or, in an array, stripped) the tracker stays marked dirty;
    it is not put back to the status it had when the call began. *)
Theorem failed_merge_keeps_tracker :
  (forall status before s after strip minLength,
      (forall j s', before !! j = Some s' -> isAborted s' = true ->
                    exists k, strip = Some k /\ k <= Z.of_nat j) ->
      isAborted s = true ->
      strip = None
      \/ (exists k, strip = Some k /\ Z.of_nat (length before) < k) ->
      mergeArray status (before ++ s :: after) strip minLength
      = (if some_degraded before
         then ParseStatus.dirty status else status, INVALID))
  /\ (forall status before p after,
      existsb failed_side before = false ->
      failed_side p = true ->
      mergeObjectSync status (before ++ p :: after)
      = (if existsb dirty_side before
         then ParseStatus.dirty status else status, INVALID)).
Proof.
  split.
  - intros status before s after strip minLength Hb Hs Hi.
    rewrite mergeArray_abort by auto using aborts_at_spec.
    rewrite mergeArray_loop_complete; [done|].
    intros j s' Hj Hs'. apply strips_at_spec. eauto.
  - intros status before p after Hb Hp.
    rewrite mergeObjectSync_abort, mergeObjectSync_complete by done. done.
Qed.

(** A run of C10: a dirty child, then a failed one; the tracker, valid at
    the call, is dirty after it. *)
Lemma failed_merge_keeps_tracker_witness :
  mergeArray ParseStatus.new
    ([DIRTY (number 1)] ++ INVALID :: [OK (number 3)]) None None
  = (ParseStatus.mk Dirty, INVALID)
  /\ mergeObjectSync ParseStatus.new
       ([mkSyncPair (DIRTY "a") (OK (number 1)) None]
          ++ mkSyncPair INVALID (OK (number 2)) None :: [])
     = (ParseStatus.mk Dirty, INVALID).
Proof.
  split.
  - apply (proj1 failed_merge_keeps_tracker ParseStatus.new
             [DIRTY (number 1)] INVALID [OK (number 3)] None None).
    + intros [|j] s' Hj Hs'; simpl in Hj; inversion Hj; subst.
      discriminate Hs'.
    + reflexivity.
    + left. reflexivity.
  - apply (proj2 failed_merge_keeps_tracker ParseStatus.new
             [mkSyncPair (DIRTY "a") (OK (number 1)) None]
             (mkSyncPair INVALID (OK (number 2)) None) []);
      reflexivity.
Defined.

(* ===================================================================== *)
(** * Properties of makeIssue and addIssueToContext *)
(* ===================================================================== *)

(** The loop of [makeIssue], over the reversed list of the installed
    maps, computes the resolution of the specification. *)
Lemma makeIssue_loop issue data (errorMaps : list (option ZodErrorMap)) :
  fold_left (apply_map issue data) (rev (filter_truthy errorMaps)) ""
  = spec_resolveMessage issue data errorMaps.
Proof.
  induction errorMaps as [|[map|] errorMaps IH]; [done | | done].
  cbn [spec_resolveMessage]. rewrite <- IH.
  change (filter_truthy (Some map :: errorMaps))
    with (map :: filter_truthy errorMaps).
  cbn [rev]. by rewrite fold_left_app.
Qed.

Lemma spec_resolveMessage_filter issue data
    (policies : list (option ZodErrorMap)) :
  spec_resolveMessage issue data (Some <$> filter_truthy policies)
  = spec_resolveMessage issue data policies.
Proof.
  induction policies as [|[policy|] policies IH]; [done | | done].
  change (Some <$> filter_truthy (Some policy :: policies))
    with (Some policy :: (Some <$> filter_truthy policies)).
  cbn [spec_resolveMessage]. by rewrite IH.
Qed.

Lemma makeIssue_explicit data path errorMaps issueData m :
  IssueData.message issueData = Some m ->
  makeIssue (MakeIssueParams.mk data path errorMaps issueData)
  = ZodIssue.mk (IssueData.code issueData) (fullPath path issueData) m
      (IssueData.others issueData).
Proof. intros H. unfold makeIssue. cbn. by rewrite H. Qed.

Lemma makeIssue_resolved data path errorMaps issueData :
  IssueData.message issueData = None ->
  makeIssue (MakeIssueParams.mk data path errorMaps issueData)
  = ZodIssue.mk (IssueData.code issueData) (fullPath path issueData)
      (spec_resolveMessage (fullIssue path issueData) data errorMaps)
      (IssueData.others issueData).
Proof.
  intros H. unfold makeIssue.
  cbn [MakeIssueParams.data MakeIssueParams.path MakeIssueParams.errorMaps
         MakeIssueParams.issueData].
  rewrite H. by rewrite makeIssue_loop.
Qed.

(** C8. An issue whose data carry a message gets that message, whatever
    the error maps are.  Otherwise the message is the resolution over the
    maps in priority order: the lowest installed map is applied first, to
    the empty default, each map above it receives as [defaultError] the
    message of the maps below, absent maps are passed over, and the
    message of the highest installed map is the result.
    [addIssueToContext] appends the issue so built, with the maps in the
    order contextual, schema, override, default.  With the default map
    [P1] (no override installed), no schema map and the contextual map
    [P2], the message is what [P2] returns when given [P1]'s message as
    [defaultError]. *)
Theorem message_resolution :
  (forall data path errorMaps errorMaps' issueData m,
      IssueData.message issueData = Some m ->
      ZodIssue.message
        (makeIssue (MakeIssueParams.mk data path errorMaps issueData)) = m
      /\ makeIssue (MakeIssueParams.mk data path errorMaps' issueData)
         = makeIssue (MakeIssueParams.mk data path errorMaps issueData))
  /\ (forall data path errorMaps issueData,
      IssueData.message issueData = None ->
      ZodIssue.message
        (makeIssue (MakeIssueParams.mk data path errorMaps issueData))
      = spec_resolveMessage (fullIssue path issueData) data errorMaps)
  /\ (forall defaultErrorMap overrideErrorMap common ctx issueData,
      IssueData.message issueData = None ->
      exists issue,
        Common.issues
          (addIssueToContext defaultErrorMap overrideErrorMap common ctx
             issueData)
        = Common.issues common ++ [issue]
        /\ ZodIssue.message issue
           = spec_resolveMessage (fullIssue (ctx_path ctx) issueData) (ctx_data ctx)
               [ Common.contextualErrorMap common;
                 ctx_schemaErrorMap ctx;
                 Some (getErrorMap defaultErrorMap overrideErrorMap);
                 defaultUnlessOverride defaultErrorMap overrideErrorMap ])
  /\ (forall (P1 P2 : ZodErrorMap) common ctx issueData,
      IssueData.message issueData = None ->
      Common.contextualErrorMap common = Some P2 ->
      ctx_schemaErrorMap ctx = None ->
      exists issue,
        Common.issues (addIssueToContext P1 None common ctx issueData)
        = Common.issues common ++ [issue]
        /\ ZodIssue.message issue
           = P2 (fullIssue (ctx_path ctx) issueData)
               (ErrorMapCtx.mk
                  (P1 (fullIssue (ctx_path ctx) issueData)
                     (ErrorMapCtx.mk "" (ctx_data ctx)))
                  (ctx_data ctx))).
Proof.
  assert (Hadd : forall defaultErrorMap overrideErrorMap common ctx issueData,
      IssueData.message issueData = None ->
      exists issue,
        Common.issues
          (addIssueToContext defaultErrorMap overrideErrorMap common ctx
             issueData)
        = Common.issues common ++ [issue]
        /\ ZodIssue.message issue
           = spec_resolveMessage (fullIssue (ctx_path ctx) issueData) (ctx_data ctx)
               [ Common.contextualErrorMap common;
                 ctx_schemaErrorMap ctx;
                 Some (getErrorMap defaultErrorMap overrideErrorMap);
                 defaultUnlessOverride defaultErrorMap overrideErrorMap ]).
  { intros defaultErrorMap overrideErrorMap common ctx issueData Hm.
    eexists. split; [reflexivity|].
    rewrite makeIssue_resolved by done. cbn [ZodIssue.message].
    apply spec_resolveMessage_filter. }
  split; [|split; [|split]].
  - intros data path errorMaps errorMaps' issueData m Hm.
    rewrite !(makeIssue_explicit _ _ _ _ m) by done. done.
  - intros data path errorMaps issueData Hm.
    by rewrite makeIssue_resolved.
  - exact Hadd.
  - intros P1 P2 common ctx issueData Hm HP2 Hschema.
    destruct (Hadd P1 None common ctx issueData Hm) as (issue & Hi & Hmsg).
    exists issue. split; [done|].
    rewrite Hmsg, HP2, Hschema. reflexivity.
Qed.

(** A run of C8: the default map answers [Required]; the contextual map
    puts [Name: ] before what it is given. *)
Lemma message_resolution_witness :
  ZodIssue.message
    (makeIssue
       (MakeIssueParams.mk (str "x") [path_key "user"]
          [Some (fun _ _ => "ignored")]
          (IssueData.mk "custom" None (Some "Too short") ∅)))
  = "Too short"
  /\ ZodIssue.message
       (makeIssue
          (MakeIssueParams.mk (str "x") [path_key "user"]
             [ Some (fun _ c => String.append "Name: " (ErrorMapCtx.defaultError c));
               None;
               Some (fun _ _ => "Required") ]
             (IssueData.mk "invalid_type" None None ∅)))
     = "Name: Required"
  /\ (exists issue,
       Common.issues
         (addIssueToContext (fun _ _ => "Required")
            (Some (fun _ c => String.append (ErrorMapCtx.defaultError c) "?"))
            (Common.mk [] None false false)
            (mkParseContext [path_key "name"] None None undefined "undefined")
            (IssueData.mk "invalid_type" None None ∅))
       = [] ++ [issue]
       /\ ZodIssue.message issue = "Required?")
  /\ (exists issue,
       Common.issues
         (addIssueToContext (fun _ _ => "Required") None
            (Common.mk []
               (Some (fun _ c => String.append "Name: " (ErrorMapCtx.defaultError c)))
               false false)
            (mkParseContext [path_key "name"] None None undefined "undefined")
            (IssueData.mk "invalid_type" None None ∅))
       = [] ++ [issue]
       /\ ZodIssue.message issue = "Name: Required").
Proof.
  split; [|split; [|split]].
  - apply (proj1 message_resolution (str "x") [path_key "user"]
             [Some (fun _ _ => "ignored")] []
             (IssueData.mk "custom" None (Some "Too short") ∅) "Too short").
    reflexivity.
  - apply (proj1 (proj2 message_resolution) (str "x") [path_key "user"]
             [ Some (fun _ c => String.append "Name: " (ErrorMapCtx.defaultError c));
               None;
               Some (fun _ _ => "Required") ]
             (IssueData.mk "invalid_type" None None ∅)).
    reflexivity.
  - apply (proj1 (proj2 (proj2 message_resolution))
             (fun _ _ => "Required")
             (Some (fun _ c => String.append (ErrorMapCtx.defaultError c) "?"))
             (Common.mk [] None false false)
             (mkParseContext [path_key "name"] None None undefined "undefined")
             (IssueData.mk "invalid_type" None None ∅)).
    reflexivity.
  - apply (proj2 (proj2 (proj2 message_resolution))
             (fun _ _ => "Required")
             (fun _ c => String.append "Name: " (ErrorMapCtx.defaultError c))
             (Common.mk []
                (Some (fun _ c => String.append "Name: " (ErrorMapCtx.defaultError c)))
                false false)
             (mkParseContext [path_key "name"] None None undefined "undefined")
             (IssueData.mk "invalid_type" None None ∅));
      reflexivity.
Defined.

(* ===================================================================== *)
(** * Properties of mergeObjectAsync *)
(* ===================================================================== *)

(** Run under the scheduler, [await x] yields what [x] resolves to, and
    logs a suspension exactly when [x] is a pending promise. *)
Lemma await_run {T} (x : ParseReturnType T) (log : list nat) :
  eutt eq (interp_state fulfil (await x) log)
    (Ret (log ++ pending x, resolved x)).
Proof.
  destruct x as [r|p]; cbn [await pending resolved].
  - rewrite interp_state_tau, tau_eutt, interp_state_ret.
    by rewrite app_nil_r.
  - rewrite interp_state_trigger. cbn. reflexivity.
Qed.

(** The loop of [mergeObjectAsync] suspends pair by pair, on the key and
    then on the value, and pushes the resolved pairs in order. *)
Lemma mergeObjectAsync_loop_run (pairs : list AsyncPair) :
  forall syncPairs log,
    eutt eq (interp_state fulfil (mergeObjectAsync_loop syncPairs pairs) log)
      (Ret (log ++ await_order pairs, syncPairs ++ (resolved_pair <$> pairs))).
Proof.
  induction pairs as [|p pairs IH]; intros syncPairs log.
  - cbn. rewrite interp_state_ret. by rewrite !app_nil_r.
  - cbn [mergeObjectAsync_loop].
    rewrite interp_state_bind, await_run, bind_ret_l. cbn [fst snd].
    rewrite interp_state_bind, await_run, bind_ret_l. cbn [fst snd].
    rewrite IH. cbn [await_order flat_map fmap list_fmap].
    unfold resolved_pair at 2.
    by rewrite <- !app_assoc.
Qed.

(** C3, as stated, fails: an [alwaysSet] carried by a pair does not reach
    [mergeObjectSync]; the absent value of key [a] is dropped although the
    pair says [alwaysSet: true]. *)
Lemma mergeObjectAsync_alwaysSet_counterexample :
  ~ (forall status pairs log,
        eutt eq (interp_state fulfil (mergeObjectAsync status pairs) log)
          (Ret (log ++ await_order pairs,
                mergeObjectSync status (resolved_triple <$> pairs)))).
Proof.
  intros H.
  specialize (H ParseStatus.new
                [mkAsyncPair (Sync (OK "a")) (Async (mkPromise 1 (OK undefined)))
                   (Some true)] []).
  unfold mergeObjectAsync in H.
  rewrite interp_state_bind, mergeObjectAsync_loop_run, bind_ret_l in H.
  cbn [fst snd] in H. rewrite interp_state_ret in H.
  apply eutt_inv_Ret in H.
  apply (f_equal
           (fun out : list nat * (ParseStatus.t * SyncParseReturnType any) =>
              match snd (snd out) return option any with
              | Res _ (object o) => o !! "a"
              | _ => None
              end)) in H.
  vm_compute in H. discriminate H.
Qed.

(** C3, amended.  [mergeObjectAsync] suspends on the pending results pair
    by pair, on a pair's key and then on its value, and then returns what
    [mergeObjectSync] returns on the list of the resolved pairs, each of
    them a key and a value without [alwaysSet]. *)
Theorem mergeObjectAsync_refines_sync status pairs log :
  eutt eq (interp_state fulfil (mergeObjectAsync status pairs) log)
    (Ret (log ++ await_order pairs,
          mergeObjectSync status (resolved_pair <$> pairs))).
Proof.
  unfold mergeObjectAsync.
  rewrite interp_state_bind, mergeObjectAsync_loop_run, bind_ret_l.
  cbn [fst snd]. rewrite interp_state_ret. reflexivity.
Qed.

(* ===================================================================== *)
(** * Further properties of the tracker and of the result predicates *)
(* ===================================================================== *)

Lemma run_cons (s : ParseStatus.t) (c : ParseStatus.call)
    (cs : list ParseStatus.call) :
  ParseStatus.run s (c :: cs) = ParseStatus.run (ParseStatus.perform s c) cs.
Proof. reflexivity. Qed.

Lemma run_dirty_only (cs : list ParseStatus.call) :
  forall s,
    calls_abort cs = false ->
    ParseStatus.run s cs = if calls_dirty cs then ParseStatus.dirty s else s.
Proof.
  induction cs as [|c cs IH]; intros s H; [done|].
  rewrite run_cons. destruct c; cbn in H; [|done].
  rewrite IH by done. cbn [calls_dirty existsb orb ParseStatus.perform].
  fold (calls_dirty cs). rewrite dirty_dirty.
  by destruct (calls_dirty cs).
Qed.

Lemma calls_abort_split (cs : list ParseStatus.call) :
  calls_abort cs = true ->
  exists before after, cs = before ++ ParseStatus.call_abort :: after.
Proof.
  induction cs as [|c cs IH]; [done|].
  destruct c; cbn.
  - intros H. destruct (IH H) as (before & after & ->).
    by exists (ParseStatus.call_dirty :: before), after.
  - intros _. by exists [], cs.
Qed.

(** X1. What a sequence of tracker calls leaves behind depends only on
    which calls occur in it: aborted if [abort()] occurs; otherwise the
    effect of one [dirty()] if [dirty()] occurs; otherwise the tracker is
    as it was. *)
Theorem ParseStatus_run_characterised (s : ParseStatus.t)
    (cs : list ParseStatus.call) :
  ParseStatus.run s cs =
  if calls_abort cs then ParseStatus.mk Aborted
  else if calls_dirty cs then ParseStatus.dirty s
  else s.
Proof.
  destruct (calls_abort cs) eqn:Ha.
  - destruct (calls_abort_split cs Ha) as (before & after & ->).
    rewrite run_app, run_cons. cbn [ParseStatus.perform].
    rewrite abort_Aborted. apply run_Aborted.
  - by apply run_dirty_only.
Qed.

Lemma calls_abort_elem (cs : list ParseStatus.call) :
  calls_abort cs = true <-> ParseStatus.call_abort ∈ cs.
Proof.
  unfold calls_abort. rewrite existsb_exists. split.
  - intros ([] & Hin & Hc); [done|]. by apply list_elem_of_In.
  - intros Hin. exists ParseStatus.call_abort.
    split; [by apply list_elem_of_In | done].
Qed.

Lemma calls_dirty_elem (cs : list ParseStatus.call) :
  calls_dirty cs = true <-> ParseStatus.call_dirty ∈ cs.
Proof.
  unfold calls_dirty. rewrite existsb_exists. split.
  - intros ([] & Hin & Hc); [|done]. by apply list_elem_of_In.
  - intros Hin. exists ParseStatus.call_dirty.
    split; [by apply list_elem_of_In | done].
Qed.

Lemma bool_iff_eq (a b : bool) : (a = true <-> b = true) -> a = b.
Proof. destruct a, b; intros [H1 H2]; auto; by (rewrite H1 || rewrite H2). Qed.

(** X2. The order of the calls made on a tracker, and their repetition,
    do not matter: two sequences in which the same calls occur leave the
    same status. *)
Theorem ParseStatus_run_order_irrelevant (s : ParseStatus.t)
    (cs ds : list ParseStatus.call) :
  (forall c, c ∈ cs <-> c ∈ ds) ->
  ParseStatus.run s cs = ParseStatus.run s ds.
Proof.
  intros H.
  assert (Ha : calls_abort cs = calls_abort ds).
  { apply bool_iff_eq. rewrite !calls_abort_elem. apply H. }
  assert (Hd : calls_dirty cs = calls_dirty ds).
  { apply bool_iff_eq. rewrite !calls_dirty_elem. apply H. }
  destruct (calls_abort cs) eqn:Hca.
  - destruct (calls_abort_split cs Hca) as (b1 & a1 & ->).
    symmetry in Ha.
    destruct (calls_abort_split ds Ha) as (b2 & a2 & ->).
    rewrite !run_app, !run_cons. cbn [ParseStatus.perform].
    by rewrite !abort_Aborted, !run_Aborted.
  - rewrite !run_dirty_only by congruence. by rewrite Hd.
Qed.

(** A run of X2: [dirty(); abort(); dirty()] against [abort(); dirty()]. *)
Lemma ParseStatus_run_order_irrelevant_witness :
  ParseStatus.run ParseStatus.new
    [ParseStatus.call_dirty; ParseStatus.call_abort; ParseStatus.call_dirty]
  = ParseStatus.run ParseStatus.new
      [ParseStatus.call_abort; ParseStatus.call_dirty].
Proof.
  apply (ParseStatus_run_order_irrelevant ParseStatus.new
           [ParseStatus.call_dirty; ParseStatus.call_abort;
            ParseStatus.call_dirty]
           [ParseStatus.call_abort; ParseStatus.call_dirty]).
  intros c. rewrite !list_elem_of_In. simpl. destruct c; tauto.
Defined.

Lemma status_cases {T} (x : SyncParseReturnType T) :
  (isAborted x = true /\ isDirty x = false /\ isValid x = false)
  \/ (isAborted x = false /\ isDirty x = true /\ isValid x = false)
  \/ (isAborted x = false /\ isDirty x = false /\ isValid x = true).
Proof. destruct x as [|[] v]; cbn; tauto. Qed.

(** X3. The three predicates divide the results: every resolved result
    satisfies exactly one of [isAborted], [isDirty] and [isValid]; [OK]
    builds a valid result, [DIRTY] a dirty one, and [INVALID] is aborted. *)
Theorem result_predicates_partition :
  (forall T (x : SyncParseReturnType T),
      (isAborted x = true /\ isDirty x = false /\ isValid x = false)
      \/ (isAborted x = false /\ isDirty x = true /\ isValid x = false)
      \/ (isAborted x = false /\ isDirty x = false /\ isValid x = true))
  /\ (forall T (v : T),
        isValid (OK v) = true /\ isDirty (DIRTY v) = true
        /\ isAborted (@INVALID T) = true).
Proof. split; [intros T x; apply status_cases | done]. Qed.

(* ===================================================================== *)
(** * Further properties of mergeArray *)
(* ===================================================================== *)

Lemma some_degraded_false (results : list (SyncParseReturnType any)) :
  some_degraded results = false <-> Forall (fun s => isValid s = true) results.
Proof.
  unfold some_degraded. induction results as [|s results IH]; cbn.
  - split; [constructor | done].
  - rewrite orb_false_iff, IH, Forall_cons.
    destruct (status_cases s) as [(-> & -> & ->)|[(-> & -> & ->)|(-> & -> & ->)]];
      cbn; intuition congruence.
Qed.

Lemma some_degraded_aborted (results : list (SyncParseReturnType any)) :
  some_degraded results = false -> some_aborted results = false.
Proof.
  unfold some_degraded, some_aborted.
  induction results as [|s results IH]; [done|]. cbn.
  intros [[Hs _]%orb_false_elim H]%orb_false_elim.
  by rewrite Hs, IH.
Qed.

Lemma kept_all (results : list (SyncParseReturnType any)) :
  some_aborted results = false -> kept results = value_of <$> results.
Proof.
  unfold some_aborted. induction results as [|s results IH]; [done|].
  cbn [existsb]. intros [Hs H]%orb_false_elim.
  rewrite kept_cons_usable by done. by rewrite IH.
Qed.

Lemma kept_length (results : list (SyncParseReturnType any)) :
  (length (kept results) <= length results)%nat.
Proof.
  unfold kept. rewrite length_fmap. apply List.filter_length_le.
Qed.

(** What the loop has done when it runs to its end. *)
Lemma mergeArray_loop_Some strip (results : list (SyncParseReturnType any)) :
  forall status arrayValue stripped i status' arrayValue' stripped',
    mergeArray_loop strip status arrayValue stripped i results
    = (status', Some (arrayValue', stripped')) ->
    status' = (if some_degraded results
               then ParseStatus.dirty status else status)
    /\ arrayValue' = arrayValue ++ kept results
    /\ stripped' = stripped || some_aborted results.
Proof.
  induction results as [|s results IH];
    intros status arrayValue stripped i status' arrayValue' stripped' H.
  - cbn in H. injection H as <- <- <-.
    cbn. by rewrite app_nil_r, orb_false_r.
  - cbn [mergeArray_loop] in H.
    cbn [some_degraded some_aborted existsb].
    fold (some_degraded results) (some_aborted results).
    destruct (isAborted s) eqn:Hs.
    + destruct (aborts_at strip i); [discriminate H|].
      apply IH in H as (-> & -> & ->).
      rewrite kept_cons_aborted by done. cbn [orb].
      rewrite dirty_dirty, orb_true_r.
      by destruct (some_degraded results).
    + apply IH in H as (-> & -> & ->).
      rewrite kept_cons_usable by done. rewrite <- app_assoc. cbn [orb app].
      split; [|done].
      destruct (isDirty s); [|done].
      rewrite dirty_dirty. by destruct (some_degraded results).
Qed.

(** The tracker after the loop, however the loop ends, is the tracker
    before it, or that tracker marked dirty. *)
Lemma mergeArray_loop_tracker strip (results : list (SyncParseReturnType any)) :
  forall status arrayValue stripped i,
    let status' :=
      fst (mergeArray_loop strip status arrayValue stripped i results) in
    status' = status \/ status' = ParseStatus.dirty status.
Proof.
  induction results as [|s results IH]; intros status arrayValue stripped i;
    [by left|].
  cbn [mergeArray_loop]. cbn zeta.
  destruct (isAborted s).
  - destruct (aborts_at strip i); [by left|].
    destruct (IH (ParseStatus.dirty status) arrayValue true (S i)) as [->| ->];
      [by right | rewrite dirty_dirty; by right].
  - destruct (isDirty s); [|apply IH].
    destruct (IH (ParseStatus.dirty status) (arrayValue ++ [value_of s])
                stripped (S i)) as [->| ->];
      [by right | rewrite dirty_dirty; by right].
Qed.

Lemma mergeArray_fst status results strip minLength :
  fst (mergeArray status results strip minLength)
  = fst (mergeArray_loop strip status [] false 0 results).
Proof.
  unfold mergeArray.
  destruct (mergeArray_loop strip status [] false 0 results)
    as [status' [[arrayValue' stripped']|]]; [|done].
  by destruct (_ && _).
Qed.

Lemma value_dirty_not_Valid (s : ParseStatus.t) :
  ParseStatus.value (ParseStatus.dirty s) <> Valid.
Proof. by destruct s as [[]]. Qed.

(** X4. Whenever [mergeArray] returns a value, that value is the array of
    the values of the results that are not aborted, in their order (so it
    is never longer than the input), and the status beside it is the
    status of the tracker as the call leaves it. *)
Theorem mergeArray_value status results strip minLength status' s v :
  mergeArray status results strip minLength = (status', Res s v) ->
  v = array (kept results)
  /\ s = ParseStatus.value status'
  /\ (length (kept results) <= length results)%nat.
Proof.
  unfold mergeArray. intros H.
  destruct (mergeArray_loop strip status [] false 0 results)
    as [status1 [[arrayValue1 stripped1]|]] eqn:Hloop; [|discriminate H].
  apply mergeArray_loop_Some in Hloop as (_ & -> & _).
  destruct (_ && _); [discriminate H|].
  injection H as <- <- <-. split; [done|]. split; [done|]. apply kept_length.
Qed.

(** A run of X4: the failed result at the stripped index leaves no gap. *)
Lemma mergeArray_value_witness :
  array [number 1; str "c"]
  = array (kept [OK (number 1); INVALID; DIRTY (str "c")])
  /\ Dirty = ParseStatus.value (ParseStatus.mk Dirty)
  /\ (length (kept [OK (number 1); INVALID; DIRTY (str "c")])
      <= length [OK (number 1); INVALID; DIRTY (str "c")])%nat.
Proof.
  apply (mergeArray_value ParseStatus.new
           [OK (number 1); INVALID; DIRTY (str "c")] (Some 1) (Some 2)
           (ParseStatus.mk Dirty) Dirty (array [number 1; str "c"])).
  reflexivity.
Defined.

(** X5. [mergeArray] returns a valid result exactly when the tracker is
    valid at the call and every result is valid; the value is then the
    array of all the values in input order, and the tracker is left as it
    was, whatever [stripInvalidFrom] and [minLength] are. *)
Theorem mergeArray_valid_iff status results strip minLength :
  (isValid (snd (mergeArray status results strip minLength)) = true
   <-> ParseStatus.value status = Valid
       /\ Forall (fun s => isValid s = true) results)
  /\ (ParseStatus.value status = Valid ->
      Forall (fun s => isValid s = true) results ->
      mergeArray status results strip minLength
      = (status, Res Valid (array (value_of <$> results)))).
Proof.
  assert (Hall : Forall (fun s => isValid s = true) results ->
    mergeArray status results strip minLength
    = (status, Res (ParseStatus.value status) (array (value_of <$> results)))).
  { intros Hv. apply some_degraded_false in Hv.
    pose proof (some_degraded_aborted _ Hv) as Ha.
    rewrite mergeArray_complete.
    - cbn zeta. by rewrite Hv, Ha, kept_all.
    - intros j s Hj Hs. exfalso.
      apply list_elem_of_lookup_2, list_elem_of_In in Hj.
      assert (existsb isAborted results = true) as Hex
        by (apply existsb_exists; eauto).
      unfold some_aborted in Ha. congruence. }
  split.
  - split.
    + intros H.
      destruct (mergeArray status results strip minLength)
        as [status' [|s v]] eqn:Hm; [discriminate H|].
      cbn [snd] in H. apply isValid_status in H. cbn in H. subst s.
      unfold mergeArray in Hm.
      destruct (mergeArray_loop strip status [] false 0 results)
        as [status1 [[arrayValue1 stripped1]|]] eqn:Hloop; [|discriminate Hm].
      apply mergeArray_loop_Some in Hloop as (Hst & _ & _).
      destruct (_ && _); [discriminate Hm|].
      injection Hm as <- Hval _. subst status1.
      destruct (some_degraded results) eqn:Hd.
      * by apply value_dirty_not_Valid in Hval.
      * split; [done|]. by apply some_degraded_false.
    + intros [Hs Hv]. rewrite (Hall Hv). cbn [snd].
      apply isValid_status. done.
  - intros Hs Hv. rewrite (Hall Hv). by rewrite Hs.
Qed.

(** A run of X5: two valid results, a stripping bound and a minimum
    length that play no part. *)
Lemma mergeArray_valid_iff_witness :
  mergeArray ParseStatus.new [OK (number 1); OK (str "b")] (Some 0) (Some 5)
  = (ParseStatus.new, Res Valid (array [number 1; str "b"])).
Proof.
  apply (proj2 (mergeArray_valid_iff ParseStatus.new
                  [OK (number 1); OK (str "b")] (Some 0) (Some 5))).
  - reflexivity.
  - repeat constructor.
Defined.

Lemma mergeObjectSync_loop_tracker (pairs : list SyncPair) :
  forall status finalObject,
    let status' := fst (mergeObjectSync_loop status finalObject pairs) in
    status' = status \/ status' = ParseStatus.dirty status.
Proof.
  induction pairs as [|p pairs IH]; intros status finalObject; [by left|].
  cbn [mergeObjectSync_loop]. cbn zeta.
  destruct (failed_side p) eqn:Hp.
  - rewrite mergeObjectSync_body_failed by done. by left.
  - rewrite mergeObjectSync_body_usable by done.
    destruct (dirty_side p); [|apply IH].
    destruct (IH (ParseStatus.dirty status) (assign finalObject p))
      as [->| ->]; [by right | rewrite dirty_dirty; by right].
Qed.

(** X6. Neither merger ever aborts the tracker, not even when it returns
    [INVALID]: after a call the tracker is as it was, or marked dirty, and
    it is aborted only if it was aborted before the call. *)
Theorem mergers_never_abort_tracker :
  (forall status results strip minLength,
      let status' := fst (mergeArray status results strip minLength) in
      (status' = status \/ status' = ParseStatus.dirty status)
      /\ (ParseStatus.value status' = Aborted
          <-> ParseStatus.value status = Aborted))
  /\ (forall status pairs,
      let status' := fst (mergeObjectSync status pairs) in
      (status' = status \/ status' = ParseStatus.dirty status)
      /\ (ParseStatus.value status' = Aborted
          <-> ParseStatus.value status = Aborted)).
Proof.
  assert (Hcases : forall status status' : ParseStatus.t,
    status' = status \/ status' = ParseStatus.dirty status ->
    (status' = status \/ status' = ParseStatus.dirty status)
    /\ (ParseStatus.value status' = Aborted
        <-> ParseStatus.value status = Aborted)).
  { intros status status' H. split; [done|].
    destruct H as [->| ->]; [done | apply value_dirty_Aborted]. }
  split.
  - intros status results strip minLength. cbn zeta. apply Hcases.
    rewrite mergeArray_fst. apply mergeArray_loop_tracker.
  - intros status pairs. cbn zeta. apply Hcases.
    rewrite mergeObjectSync_tracker. apply mergeObjectSync_loop_tracker.
Qed.

Lemma some_aborted_split (results : list (SyncParseReturnType any)) :
  some_aborted results = true ->
  exists before s after,
    results = before ++ s :: after /\ isAborted s = true.
Proof.
  unfold some_aborted. induction results as [|s results IH]; [done|].
  cbn [existsb]. destruct (isAborted s) eqn:Hs.
  - intros _. by exists [], s, results.
  - cbn [orb]. intros H. destruct (IH H) as (before & s' & after & -> & Hs').
    by exists (s :: before), s', after.
Qed.

(** X7. [minLength] bears on the outcome only through stripping, and
    [stripInvalidFrom] only through failed results: with stripping
    disabled the call returns the same for every [minLength], and on
    results none of which is aborted it returns the same for every
    [stripInvalidFrom] and [minLength]. *)
Theorem mergeArray_options_irrelevant :
  (forall status results minLength,
      mergeArray status results None minLength
      = mergeArray status results None None)
  /\ (forall status results strip minLength,
      some_aborted results = false ->
      mergeArray status results strip minLength
      = mergeArray status results None None).
Proof.
  assert (Hnone : forall status results strip minLength,
    some_aborted results = false ->
    mergeArray status results strip minLength
    = (if some_degraded results then ParseStatus.dirty status else status,
       Res (ParseStatus.value
              (if some_degraded results
               then ParseStatus.dirty status else status))
         (array (kept results)))).
  { intros status results strip minLength Ha.
    rewrite mergeArray_complete.
    - cbn zeta. by rewrite Ha.
    - intros j s Hj Hs. exfalso.
      apply list_elem_of_lookup_2, list_elem_of_In in Hj.
      assert (existsb isAborted results = true) as Hex
        by (apply existsb_exists; eauto).
      unfold some_aborted in Ha. congruence. }
  split.
  - intros status results minLength.
    destruct (some_aborted results) eqn:Ha.
    + destruct (some_aborted_split results Ha) as (before & s & after & -> & Hs).
      by rewrite !mergeArray_abort.
    + by rewrite !Hnone.
  - intros status results strip minLength Ha. by rewrite !Hnone.
Qed.

(** A run of X7: without a failed result the options change nothing. *)
Lemma mergeArray_options_irrelevant_witness :
  mergeArray ParseStatus.new [OK (number 1); DIRTY (number 2)] (Some 1) (Some 9)
  = mergeArray ParseStatus.new [OK (number 1); DIRTY (number 2)] None None.
Proof.
  apply (proj2 mergeArray_options_irrelevant ParseStatus.new
           [OK (number 1); DIRTY (number 2)] (Some 1) (Some 9)).
  reflexivity.
Defined.

(** With stripping disabled the index and the values already pushed play
    no part in what the loop does next. *)
Lemma mergeArray_loop_None_prefix (results : list (SyncParseReturnType any)) :
  forall status prefix arrayValue stripped i j,
    mergeArray_loop None status (prefix ++ arrayValue) stripped i results =
    match mergeArray_loop None status arrayValue stripped j results with
    | (status', None) => (status', None)
    | (status', Some (arrayValue', stripped')) =>
        (status', Some (prefix ++ arrayValue', stripped'))
    end.
Proof.
  induction results as [|s results IH];
    intros status prefix arrayValue stripped i j; [done|].
  cbn [mergeArray_loop typeof_number negb orb].
  destruct (isAborted s); [done|].
  rewrite <- app_assoc. apply IH.
Qed.

Lemma mergeArray_None status results :
  mergeArray status results None None =
  match mergeArray_loop None status [] false 0 results with
  | (status', None) => (status', INVALID)
  | (status', Some (arrayValue, _)) =>
      (status', Res (ParseStatus.value status') (array arrayValue))
  end.
Proof.
  unfold mergeArray.
  destruct (mergeArray_loop None status [] false 0 results)
    as [status' [[arrayValue stripped]|]]; [|done].
  cbn [truthy_number]. by rewrite andb_false_r.
Qed.

(** X8. Without stripping, merging a concatenation is merging its two
    parts one after the other on the same tracker: if both parts merge to
    arrays the whole merges to their concatenation, with the status the
    second merge returns; if either part merges to [INVALID], so does the
    whole. *)
Theorem mergeArray_app :
  (forall status xs ys status1 s1 l1 status2 s2 l2,
      mergeArray status xs None None = (status1, Res s1 (array l1)) ->
      mergeArray status1 ys None None = (status2, Res s2 (array l2)) ->
      mergeArray status (xs ++ ys) None None
      = (status2, Res s2 (array (l1 ++ l2))))
  /\ (forall status xs ys,
      snd (mergeArray status xs None None) = INVALID ->
      mergeArray status (xs ++ ys) None None
      = mergeArray status xs None None)
  /\ (forall status xs ys status1 s1 v1,
      mergeArray status xs None None = (status1, Res s1 v1) ->
      snd (mergeArray status1 ys None None) = INVALID ->
      mergeArray status (xs ++ ys) None None
      = mergeArray status1 ys None None).
Proof.
  split; [|split].
  - intros status xs ys status1 s1 l1 status2 s2 l2 Hx Hy.
    rewrite mergeArray_None in *. rewrite mergeArray_loop_app.
    destruct (mergeArray_loop None status [] false 0 xs)
      as [st1 [[a1 b1]|]] eqn:Hlx; [|discriminate Hx].
    injection Hx as -> _ ->.
    destruct (mergeArray_loop_Some _ _ _ _ _ _ _ _ _ Hlx) as (_ & _ & Hb).
    rewrite <- (app_nil_r l1) at 1.
    rewrite (mergeArray_loop_None_prefix ys status1 l1 [] b1 _ 0%nat).
    assert (Hb1 : b1 = false).
    { destruct (some_aborted xs) eqn:Ha; [|by rewrite Hb].
      destruct (some_aborted_split xs Ha) as (before & s & after & -> & Hs).
      rewrite mergeArray_loop_app in Hlx.
      destruct (mergeArray_loop None status [] false 0 before)
        as [st0 [[a0 b0]|]]; [|discriminate Hlx].
      by rewrite mergeArray_loop_abort in Hlx. }
    clear Hb. subst b1.
    destruct (mergeArray_loop None status1 [] false 0 ys)
      as [st2 [[a2 b2]|]]; [|discriminate Hy].
    by injection Hy as -> <- <-.
  - intros status xs ys Hx.
    rewrite !mergeArray_None in *. rewrite mergeArray_loop_app.
    by destruct (mergeArray_loop None status [] false 0 xs)
      as [st1 [[a1 b1]|]].
  - intros status xs ys status1 s1 v1 Hx Hy.
    rewrite !mergeArray_None in *. rewrite mergeArray_loop_app.
    destruct (mergeArray_loop None status [] false 0 xs)
      as [st1 [[a1 b1]|]] eqn:Hlx; [|discriminate Hx].
    injection Hx as -> _ _.
    rewrite <- (app_nil_r a1).
    rewrite (mergeArray_loop_None_prefix ys status1 a1 [] b1 _ 0%nat).
    assert (Hb1 : b1 = false).
    { destruct (mergeArray_loop_Some _ _ _ _ _ _ _ _ _ Hlx) as (_ & _ & Hb).
      destruct (some_aborted xs) eqn:Ha; [|by rewrite Hb].
      destruct (some_aborted_split xs Ha) as (before & s & after & -> & Hs).
      rewrite mergeArray_loop_app in Hlx.
      destruct (mergeArray_loop None status [] false 0 before)
        as [st0 [[a0 b0]|]]; [|discriminate Hlx].
      by rewrite mergeArray_loop_abort in Hlx. }
    subst b1.
    by destruct (mergeArray_loop None status1 [] false 0 ys)
      as [st2 [[a2 b2]|]].
Qed.

(** A run of X8: two arrays; a failure in the first part; a failure in
    the second. *)
Lemma mergeArray_app_witness :
  mergeArray ParseStatus.new ([DIRTY (number 1)] ++ [OK (number 2)]) None None
  = (ParseStatus.mk Dirty, Res Dirty (array ([number 1] ++ [number 2])))
  /\ mergeArray ParseStatus.new ([INVALID] ++ [OK (number 2)]) None None
     = mergeArray ParseStatus.new [INVALID] None None
  /\ mergeArray ParseStatus.new ([DIRTY (number 1)] ++ [INVALID]) None None
     = mergeArray (ParseStatus.mk Dirty) [INVALID] None None.
Proof.
  split; [|split].
  - apply (proj1 mergeArray_app ParseStatus.new
             [DIRTY (number 1)] [OK (number 2)]
             (ParseStatus.mk Dirty) Dirty [number 1]
             (ParseStatus.mk Dirty) Dirty [number 2]);
      reflexivity.
  - apply (proj1 (proj2 mergeArray_app) ParseStatus.new
             [INVALID] [OK (number 2)]).
    reflexivity.
  - apply (proj2 (proj2 mergeArray_app) ParseStatus.new
             [DIRTY (number 1)] [INVALID]
             (ParseStatus.mk Dirty) Dirty (array [number 1]));
      reflexivity.
Defined.

(** X20. With stripping enabled from the first index on (a bound of 0 or
    below) no failed result ends the merge: the call returns [INVALID]
    only if some result failed and the values left are fewer than a given
    [minLength]; otherwise it returns the values of the results that did
    not fail, and the tracker is marked dirty exactly when some result was
    failed or dirty. *)
Theorem mergeArray_strip_everywhere status results k minLength :
  k <= 0 ->
  mergeArray status results (Some k) minLength =
  let status' :=
    if some_degraded results then ParseStatus.dirty status else status in
  (status',
   if some_aborted results && index_lt (length (kept results)) minLength
   then INVALID
   else Res (ParseStatus.value status') (array (kept results))).
Proof.
  intros Hk. apply mergeArray_complete.
  intros j s _ _. apply strips_at_Some. lia.
Qed.

(** A run of X20: every result failed, nothing required. *)
Lemma mergeArray_strip_everywhere_witness :
  mergeArray ParseStatus.new [INVALID; INVALID] (Some 0) None
  = (ParseStatus.mk Dirty, Res Dirty (array [])).
Proof.
  apply (mergeArray_strip_everywhere ParseStatus.new [INVALID; INVALID] 0 None).
  lia.
Defined.

(* ===================================================================== *)
(** * Further properties of mergeObjectSync *)
(* ===================================================================== *)

(** What a call that returns a value has done. *)
Lemma mergeObjectSync_Res status pairs status' s v :
  mergeObjectSync status pairs = (status', Res s v) ->
  existsb failed_side pairs = false
  /\ status' = (if existsb dirty_side pairs
                then ParseStatus.dirty status else status)
  /\ s = ParseStatus.value status'
  /\ v = object (fold_left assign pairs ∅).
Proof.
  intros H. destruct (existsb failed_side pairs) eqn:Hf.
  - apply mergeObjectSync_failed with (status := status) in Hf.
    rewrite H in Hf. discriminate Hf.
  - rewrite mergeObjectSync_complete in H by done. cbn zeta in H.
    by injection H as <- <- <-.
Qed.

Lemma valid_sides_spec (p : SyncPair) :
  valid_sides p = true <-> failed_side p = false /\ dirty_side p = false.
Proof.
  unfold valid_sides, failed_side, dirty_side, isValid.
  destruct (status_of (key p)), (status_of (value p)); compute;
    intuition congruence.
Qed.

Lemma all_valid_sides (pairs : list SyncPair) :
  Forall (fun p => valid_sides p = true) pairs
  <-> existsb failed_side pairs = false /\ existsb dirty_side pairs = false.
Proof.
  induction pairs as [|p pairs IH]; cbn.
  - split; [done | constructor].
  - rewrite Forall_cons, IH, valid_sides_spec, !orb_false_iff. tauto.
Qed.

(** X9. [mergeObjectSync] returns a valid result exactly when the tracker
    is valid at the call and the key and the value of every pair are
    valid; the tracker is then left as it was. *)
Theorem mergeObjectSync_valid_iff status pairs :
  (isValid (snd (mergeObjectSync status pairs)) = true
   <-> ParseStatus.value status = Valid
       /\ Forall (fun p => valid_sides p = true) pairs)
  /\ (ParseStatus.value status = Valid ->
      Forall (fun p => valid_sides p = true) pairs ->
      mergeObjectSync status pairs
      = (status, Res Valid (object (fold_left assign pairs ∅)))).
Proof.
  assert (Hall : Forall (fun p => valid_sides p = true) pairs ->
    mergeObjectSync status pairs
    = (status, Res (ParseStatus.value status)
                 (object (fold_left assign pairs ∅)))).
  { intros [Hf Hd]%all_valid_sides.
    rewrite mergeObjectSync_complete by done. cbn zeta. by rewrite Hd. }
  split.
  - split.
    + intros H.
      destruct (mergeObjectSync status pairs) as [status' [|s v]] eqn:Hm;
        [discriminate H|].
      cbn [snd] in H. apply isValid_status in H. cbn in H. subst s.
      apply mergeObjectSync_Res in Hm as (Hf & -> & Hs & _).
      destruct (existsb dirty_side pairs) eqn:Hd.
      * symmetry in Hs. by apply value_dirty_not_Valid in Hs.
      * split; [done|]. by apply all_valid_sides.
    + intros [Hs Hv]. rewrite (Hall Hv). cbn [snd].
      by apply isValid_status.
  - intros Hs Hv. rewrite (Hall Hv). by rewrite Hs.
Qed.

(** A run of X9: two valid pairs on a fresh tracker. *)
Lemma mergeObjectSync_valid_iff_witness :
  mergeObjectSync ParseStatus.new
    [ mkSyncPair (OK "a") (OK (number 1)) None;
      mkSyncPair (OK "b") (OK undefined) None ]
  = (ParseStatus.new,
     Res Valid
       (object
          (fold_left assign
             [ mkSyncPair (OK "a") (OK (number 1)) None;
               mkSyncPair (OK "b") (OK undefined) None ] ∅))).
Proof.
  apply (proj2 (mergeObjectSync_valid_iff ParseStatus.new
                  [ mkSyncPair (OK "a") (OK (number 1)) None;
                    mkSyncPair (OK "b") (OK undefined) None ])).
  - reflexivity.
  - repeat constructor.
Defined.

Lemma assign_lookup finalObject p (k : string) (v : any) :
  assign finalObject p !! k = Some v ->
  finalObject !! k = Some v
  \/ (key_name p = Some k /\ value_of (value p) = v /\ k <> "__proto__"
      /\ (v <> undefined \/ alwaysSet p = Some true)).
Proof.
  unfold assign, key_name. destruct (key p) as [|ks k']; [by left|].
  destruct (String.eqb_spec k' "__proto__") as [->|Hne]; [by left|].
  cbn [negb andb].
  destruct (defined (value_of (value p))) eqn:Hd; cbn [orb].
  - rewrite lookup_insert. case_decide as Hk; [|by left].
    subst k'. intros [= <-]. right. repeat split; [done|].
    left. intros Hv. rewrite Hv in Hd. discriminate Hd.
  - destruct (truthy_flag (alwaysSet p)) eqn:Ht; [|by left].
    rewrite lookup_insert. case_decide as Hk; [|by left].
    subst k'. intros [= <-]. right. repeat split; [done|].
    right. by apply truthy_flag_true.
Qed.

Lemma fold_assign_lookup (pairs : list SyncPair) (k : string) (v : any) :
  forall finalObject,
    fold_left assign pairs finalObject !! k = Some v ->
    finalObject !! k = Some v
    \/ exists p, p ∈ pairs /\ key_name p = Some k /\ value_of (value p) = v
                 /\ k <> "__proto__"
                 /\ (v <> undefined \/ alwaysSet p = Some true).
Proof.
  induction pairs as [|p pairs IH]; intros finalObject H; [by left|].
  cbn in H. apply IH in H as [H|(q & Hq & H)].
  - apply assign_lookup in H as [H|H]; [by left|].
    right. exists p. split; [apply list_elem_of_here | done].
  - right. exists q. split; [by apply list_elem_of_further | done].
Qed.

(** X10. [mergeObjectSync] invents no property: every property of the
    object it returns is named by the key of one of the pairs and holds
    that pair's value; the key is not [__proto__], and the value is
    present unless that pair's [alwaysSet] is true. *)
Theorem mergeObjectSync_properties_from_pairs
    status pairs status' s finalObject (k : string) (v : any) :
  mergeObjectSync status pairs = (status', Res s (object finalObject)) ->
  finalObject !! k = Some v ->
  exists p,
    p ∈ pairs /\ key (p) = Res (status_of (key p)) k
    /\ value_of (value p) = v
    /\ k <> "__proto__"
    /\ (v <> undefined \/ alwaysSet p = Some true).
Proof.
  intros Hm Hk. apply mergeObjectSync_Res in Hm as (_ & _ & _ & [= ->]).
  apply fold_assign_lookup in Hk as [Hk|(p & Hp & Hname & Hrest)].
  - by rewrite lookup_empty in Hk.
  - exists p. split; [done|]. split; [|done].
    unfold key_name in Hname. destruct (key p) as [|ks k']; [done|].
    by injection Hname as ->.
Qed.

(** A run of X10: the one property of the object comes from the second
    pair. *)
Lemma mergeObjectSync_properties_from_pairs_witness :
  exists p,
    p ∈ [ mkSyncPair (OK "a") (OK undefined) None;
          mkSyncPair (DIRTY "b") (OK (number 2)) None ]
    /\ key p = Res (status_of (key p)) "b"
    /\ value_of (value p) = number 2
    /\ "b" <> "__proto__"
    /\ (number 2 <> undefined \/ alwaysSet p = Some true).
Proof.
  apply (mergeObjectSync_properties_from_pairs ParseStatus.new
           [ mkSyncPair (OK "a") (OK undefined) None;
             mkSyncPair (DIRTY "b") (OK (number 2)) None ]
           (ParseStatus.mk Dirty) Dirty (<["b" := number 2]> ∅)
           "b" (number 2)).
  - reflexivity.
  - reflexivity.
Defined.





Lemma assign_union (a b : gmap string any) p :
  assign (a ∪ b) p = assign a p ∪ b.
Proof.
  unfold assign. destruct (key p) as [|ks k]; [done|].
  destruct (_ && _); [|done]. apply insert_union_l.
Qed.

Lemma fold_assign_union (pairs : list SyncPair) :
  forall a b : gmap string any,
    fold_left assign pairs (a ∪ b) = fold_left assign pairs a ∪ b.
Proof.
  induction pairs as [|p pairs IH]; intros a b; [done|].
  cbn. by rewrite assign_union, IH.
Qed.

(** X12. Merging a concatenation of pairs is merging its two parts one
    after the other on the same tracker: if both parts merge to objects,
    the whole merges to their union, in which the second part prevails on
    the keys both parts set, with the status the second merge returns; if
    the first part merges to [INVALID], so does the whole. *)
Theorem mergeObjectSync_app :
  (forall status xs ys status1 s1 o1 status2 s2 o2,
      mergeObjectSync status xs = (status1, Res s1 (object o1)) ->
      mergeObjectSync status1 ys = (status2, Res s2 (object o2)) ->
      mergeObjectSync status (xs ++ ys)
      = (status2, Res s2 (object (o2 ∪ o1))))
  /\ (forall status xs ys,
      snd (mergeObjectSync status xs) = INVALID ->
      mergeObjectSync status (xs ++ ys) = mergeObjectSync status xs).
Proof.
  split.
  - intros status xs ys status1 s1 o1 status2 s2 o2 Hx Hy.
    apply mergeObjectSync_Res in Hx as (Hfx & -> & -> & [= ->]).
    apply mergeObjectSync_Res in Hy as (Hfy & -> & -> & [= ->]).
    rewrite mergeObjectSync_complete
      by (rewrite existsb_app; by rewrite Hfx, Hfy).
    cbn zeta. rewrite existsb_app, fold_left_app.
    rewrite <- fold_assign_union, (left_id_L ∅ (∪)).
    destruct (existsb dirty_side xs), (existsb dirty_side ys); cbn [orb];
      by rewrite ?dirty_dirty.
  - intros status xs ys Hx. unfold mergeObjectSync in *.
    rewrite mergeObjectSync_loop_app.
    by destruct (mergeObjectSync_loop status ∅ xs) as [st1 [o1|]].
Qed.

(** A run of X12: both parts set [a]; the second part prevails. *)
Lemma mergeObjectSync_app_witness :
  mergeObjectSync ParseStatus.new
    ([ mkSyncPair (OK "a") (OK (number 1)) None;
       mkSyncPair (OK "b") (DIRTY (number 2)) None ]
       ++ [mkSyncPair (OK "a") (OK (number 3)) None])
  = (ParseStatus.mk Dirty,
     Res Dirty
       (object (<["a" := number 3]> ∅
                ∪ <["b" := number 2]> (<["a" := number 1]> ∅))))
  /\ mergeObjectSync ParseStatus.new
       ([mkSyncPair INVALID (OK (number 1)) None]
          ++ [mkSyncPair (OK "a") (OK (number 3)) None])
     = mergeObjectSync ParseStatus.new
         [mkSyncPair INVALID (OK (number 1)) None].
Proof.
  split.
  - apply (proj1 mergeObjectSync_app ParseStatus.new
             [ mkSyncPair (OK "a") (OK (number 1)) None;
               mkSyncPair (OK "b") (DIRTY (number 2)) None ]
             [mkSyncPair (OK "a") (OK (number 3)) None]
             (ParseStatus.mk Dirty) Dirty
             (<["b" := number 2]> (<["a" := number 1]> ∅))
             (ParseStatus.mk Dirty) Dirty (<["a" := number 3]> ∅));
      reflexivity.
  - apply (proj2 mergeObjectSync_app ParseStatus.new
             [mkSyncPair INVALID (OK (number 1)) None]
             [mkSyncPair (OK "a") (OK (number 3)) None]).
    reflexivity.
Defined.

(* ===================================================================== *)
(** * Further properties of makeIssue and addIssueToContext *)
(* ===================================================================== *)

(** X13. Error maps decide the message and nothing else: whatever the
    maps and whether or not the issue data carry a message, the issue
    built has the code and the other properties of the issue data, and its
    path is the given path followed by the path of the issue data, or the
    given path alone when the issue data have none. *)
Theorem makeIssue_path_code (params : MakeIssueParams.t) :
  let issueData := MakeIssueParams.issueData params in
  ZodIssue.code (makeIssue params) = IssueData.code issueData
  /\ ZodIssue.others (makeIssue params) = IssueData.others issueData
  /\ ZodIssue.path (makeIssue params)
     = match IssueData.path issueData with
       | Some suffix => MakeIssueParams.path params ++ suffix
       | None => MakeIssueParams.path params
       end.
Proof.
  destruct params as [data path errorMaps issueData]. cbn zeta.
  cbn [MakeIssueParams.issueData MakeIssueParams.path].
  assert (Hpath : fullPath path issueData
                  = match IssueData.path issueData with
                    | Some suffix => path ++ suffix
                    | None => path
                    end).
  { unfold fullPath. destruct (IssueData.path issueData); [done|].
    apply app_nil_r. }
  destruct (IssueData.message issueData) as [m|] eqn:Hm.
  - rewrite (makeIssue_explicit _ _ _ _ m) by done. by rewrite <- Hpath.
  - rewrite makeIssue_resolved by done. by rewrite <- Hpath.
Qed.

Lemma makeIssue_filter data path errorMaps errorMaps' issueData :
  filter_truthy errorMaps = filter_truthy errorMaps' ->
  makeIssue (MakeIssueParams.mk data path errorMaps issueData)
  = makeIssue (MakeIssueParams.mk data path errorMaps' issueData).
Proof.
  intros H. unfold makeIssue.
  cbn [MakeIssueParams.data MakeIssueParams.path MakeIssueParams.errorMaps
         MakeIssueParams.issueData].
  by rewrite H.
Qed.

Lemma filter_truthy_app {A} (xs ys : list (option A)) :
  filter_truthy (xs ++ ys) = filter_truthy xs ++ filter_truthy ys.
Proof. apply omap_app. Qed.

Lemma spec_resolveMessage_app issue data (higher : list (option ZodErrorMap)) :
  forall lower lower',
    spec_resolveMessage issue data lower = spec_resolveMessage issue data lower' ->
    spec_resolveMessage issue data (higher ++ lower)
    = spec_resolveMessage issue data (higher ++ lower').
Proof.
  induction higher as [|[m|] higher IH]; intros lower lower' H; cbn; auto.
  by rewrite (IH lower lower').
Qed.

(** X14. An entry of [errorMaps] that is absent, and a map that hands
    back the [defaultError] it is given, are neutral wherever they stand
    in the chain: removing either leaves the issue built unchanged. *)
Theorem makeIssue_neutral_maps :
  (forall data path higher lower issueData,
      makeIssue (MakeIssueParams.mk data path (higher ++ None :: lower) issueData)
      = makeIssue (MakeIssueParams.mk data path (higher ++ lower) issueData))
  /\ (forall data path higher (map : ZodErrorMap) lower issueData,
      (forall issue ctx, map issue ctx = ErrorMapCtx.defaultError ctx) ->
      makeIssue
        (MakeIssueParams.mk data path (higher ++ Some map :: lower) issueData)
      = makeIssue (MakeIssueParams.mk data path (higher ++ lower) issueData)).
Proof.
  split.
  - intros data path higher lower issueData.
    apply makeIssue_filter. by rewrite !filter_truthy_app.
  - intros data path higher map lower issueData Hmap.
    destruct (IssueData.message issueData) as [m|] eqn:Hm.
    + by rewrite !(makeIssue_explicit _ _ _ _ m).
    + rewrite !makeIssue_resolved by done. f_equal.
      apply spec_resolveMessage_app. cbn. by rewrite Hmap.
Qed.

(** A run of X14: a pass-through map between two others. *)
Lemma makeIssue_neutral_maps_witness :
  makeIssue
    (MakeIssueParams.mk null []
       ([Some (fun _ c => String.append (ErrorMapCtx.defaultError c) "!")]
          ++ Some (fun _ c => ErrorMapCtx.defaultError c)
          :: [Some (fun _ _ => "Bad")])
       (IssueData.mk "custom" None None ∅))
  = makeIssue
      (MakeIssueParams.mk null []
         ([Some (fun _ c => String.append (ErrorMapCtx.defaultError c) "!")]
            ++ [Some (fun _ _ => "Bad")])
         (IssueData.mk "custom" None None ∅)).
Proof.
  apply (proj2 makeIssue_neutral_maps null []
           [Some (fun _ c => String.append (ErrorMapCtx.defaultError c) "!")]
           (fun _ c => ErrorMapCtx.defaultError c)
           [Some (fun _ _ => "Bad")]
           (IssueData.mk "custom" None None ∅)).
  reflexivity.
Defined.

Lemma addIssueToContext_chain defaultErrorMap overrideErrorMap common ctx
    issueData :
  addIssueToContext defaultErrorMap overrideErrorMap common ctx issueData
  = Common.mk
      (Common.issues common
         ++ [makeIssue
               (MakeIssueParams.mk (ctx_data ctx) (ctx_path ctx)
                  [ Common.contextualErrorMap common;
                    ctx_schemaErrorMap ctx;
                    overrideErrorMap;
                    Some defaultErrorMap ]
                  issueData)])
      (Common.contextualErrorMap common) (Common.async common)
      (Common.strict common).
Proof.
  unfold addIssueToContext. do 2 f_equal. f_equal.
  apply makeIssue_filter.
  destruct (Common.contextualErrorMap common), (ctx_schemaErrorMap ctx),
    overrideErrorMap; reflexivity.
Qed.

(** X15. Whether or not an override map is installed, [addIssueToContext]
    consults the default map exactly once, at the bottom of the chain:
    the issue it records is the one [makeIssue] builds from the maps
    contextual, schema, installed override (if any), default.  When none
    of the first three is present and the issue data carry no message,
    the message is what the default map returns for an empty
    [defaultError]. *)
Theorem addIssueToContext_default_once :
  (forall defaultErrorMap overrideErrorMap common ctx issueData,
      Common.issues
        (addIssueToContext defaultErrorMap overrideErrorMap common ctx
           issueData)
      = Common.issues common
        ++ [makeIssue
              (MakeIssueParams.mk (ctx_data ctx) (ctx_path ctx)
                 [ Common.contextualErrorMap common;
                   ctx_schemaErrorMap ctx;
                   overrideErrorMap;
                   Some defaultErrorMap ]
                 issueData)])
  /\ (forall (defaultErrorMap : ZodErrorMap) common ctx issueData,
      Common.contextualErrorMap common = None ->
      ctx_schemaErrorMap ctx = None ->
      IssueData.message issueData = None ->
      ZodIssue.message <$>
        last (Common.issues
                (addIssueToContext defaultErrorMap None common ctx issueData))
      = Some (defaultErrorMap (fullIssue (ctx_path ctx) issueData)
                (ErrorMapCtx.mk "" (ctx_data ctx)))).
Proof.
  split.
  - intros. by rewrite addIssueToContext_chain.
  - intros defaultErrorMap common ctx issueData Hc Hs Hm.
    rewrite addIssueToContext_chain. cbn [Common.issues].
    rewrite last_snoc. cbn [fmap option_fmap option_map].
    rewrite makeIssue_resolved by done. by rewrite Hc, Hs.
Qed.

(** A run of X15: no contextual map, no schema map, no override. *)
Lemma addIssueToContext_default_once_witness :
  ZodIssue.message <$>
    last (Common.issues
            (addIssueToContext (fun _ c => String.append (ErrorMapCtx.defaultError c) "Required")
               None (Common.mk [] None false false)
               (mkParseContext [] None None undefined "undefined")
               (IssueData.mk "invalid_type" None None ∅)))
  = Some "Required".
Proof.
  apply (proj2 addIssueToContext_default_once
           (fun _ c => String.append (ErrorMapCtx.defaultError c) "Required")
           (Common.mk [] None false false)
           (mkParseContext [] None None undefined "undefined")
           (IssueData.mk "invalid_type" None None ∅));
    reflexivity.
Defined.

(** X16. Reports only ever add to the shared list of issues, in the
    order in which they are made: after a run of [addIssueToContext]
    calls the list is the old list followed by one issue for each call,
    each built for its own context, and the contextual map and the flags
    of the run are untouched. *)
Theorem addIssuesToContext_appends defaultErrorMap overrideErrorMap
    (reports : list (ParseContext * IssueData.t)) (common : Common.t) :
  let common' :=
    addIssuesToContext defaultErrorMap overrideErrorMap common reports in
  Common.issues common'
  = Common.issues common
    ++ ((fun report =>
           makeIssue
             (MakeIssueParams.mk (ctx_data (fst report)) (ctx_path (fst report))
                [ Common.contextualErrorMap common;
                  ctx_schemaErrorMap (fst report);
                  overrideErrorMap;
                  Some defaultErrorMap ]
                (snd report))) <$> reports)
  /\ length (Common.issues common')
     = (length (Common.issues common) + length reports)%nat
  /\ Common.contextualErrorMap common' = Common.contextualErrorMap common
  /\ Common.async common' = Common.async common
  /\ Common.strict common' = Common.strict common.
Proof.
  cbn zeta. revert common.
  induction reports as [|report reports IH]; intros common.
  - cbn. rewrite app_nil_r. repeat split. lia.
  - unfold addIssuesToContext in *. cbn [fold_left].
    destruct (IH (addIssueToContext defaultErrorMap overrideErrorMap common
                    (fst report) (snd report)))
      as (Hi & Hl & Hc & Ha & Hs).
    rewrite Hl, Hi, Hc, Ha, Hs. rewrite addIssueToContext_chain.
    cbn [Common.issues Common.contextualErrorMap Common.async Common.strict].
    rewrite <- app_assoc, length_app. cbn [length fmap list_fmap app].
    repeat split. lia.
Qed.

(* ===================================================================== *)
(** * Further properties of mergeObjectAsync *)
(* ===================================================================== *)

Lemma mergeObjectAsync_run status pairs log :
  eutt eq (interp_state fulfil (mergeObjectAsync status pairs) log)
    (Ret (log ++ await_order pairs,
          mergeObjectSync status (resolved_pair <$> pairs))).
Proof.
  unfold mergeObjectAsync.
  rewrite interp_state_bind, mergeObjectAsync_loop_run, bind_ret_l.
  cbn [fst snd]. rewrite interp_state_ret. reflexivity.
Qed.



Lemma await_order_app (xs ys : list AsyncPair) :
  await_order (xs ++ ys) = await_order xs ++ await_order ys.
Proof. unfold await_order. apply flat_map_app. Qed.



(** X18. [mergeObjectAsync] does not cut its awaiting short.  When a pair
    resolves to a failed key or value the call returns [INVALID], with the
    tracker as the pairs before it leave it, but only after the promises
    of every later pair have been awaited as well. *)
Theorem mergeObjectAsync_awaits_all status before p after log :
  failed_side (resolved_pair p) = true ->
  eutt eq
    (interp_state fulfil (mergeObjectAsync status (before ++ p :: after)) log)
    (Ret (log ++ await_order before ++ await_order [p] ++ await_order after,
          (fst (mergeObjectSync status (resolved_pair <$> before)), INVALID))).
Proof.
  intros Hp. rewrite mergeObjectAsync_run.
  rewrite fmap_app, fmap_cons, mergeObjectSync_abort by done.
  change (p :: after) with ([p] ++ after).
  by rewrite !await_order_app.
Qed.

(** A run of X18: the first value is fulfilled with [INVALID]; promise 2
    is awaited all the same. *)
Lemma mergeObjectAsync_awaits_all_witness :
  eutt eq
    (interp_state fulfil
       (mergeObjectAsync ParseStatus.new
          ([] ++ mkAsyncPair (Sync (OK "a")) (Async (mkPromise 1 INVALID)) None
              :: [mkAsyncPair (Sync (OK "b"))
                    (Async (mkPromise 2 (OK (number 2)))) None]))
       [])
    (Ret ([] ++ await_order []
             ++ await_order
                  [mkAsyncPair (Sync (OK "a")) (Async (mkPromise 1 INVALID)) None]
             ++ await_order
                  [mkAsyncPair (Sync (OK "b"))
                     (Async (mkPromise 2 (OK (number 2)))) None],
          (fst (mergeObjectSync ParseStatus.new (resolved_pair <$> [])),
           INVALID))).
Proof.
  apply (mergeObjectAsync_awaits_all ParseStatus.new []
           (mkAsyncPair (Sync (OK "a")) (Async (mkPromise 1 INVALID)) None)
           [mkAsyncPair (Sync (OK "b"))
              (Async (mkPromise 2 (OK (number 2)))) None] []).
  reflexivity.
Defined.

(** X19. An object returned by [mergeObjectAsync] has no property that
    holds [undefined]: no [alwaysSet] reaches the synchronous merge, so a
    key whose value resolves to an absent value is always left out. *)
Theorem mergeObjectAsync_no_absent_property
    status pairs log log' status' s finalObject (k : string) (v : any) :
  eutt eq (interp_state fulfil (mergeObjectAsync status pairs) log)
    (Ret (log', (status', Res s (object finalObject)))) ->
  finalObject !! k = Some v ->
  defined v = true.
Proof.
  intros H Hk. rewrite mergeObjectAsync_run in H.
  apply eutt_inv_Ret in H. injection H as _ H.
  apply mergeObjectSync_Res in H as (_ & _ & _ & [= ->]).
  apply fold_assign_lookup in Hk as [Hk|(q & Hq & _ & _ & _ & [Hv|Ha])].
  - by rewrite lookup_empty in Hk.
  - by destruct v.
  - apply list_elem_of_fmap in Hq as (p & -> & _). discriminate Ha.
Qed.

(** A run of X19: key [a] resolves to an absent value although the
    caller's pair says [alwaysSet]; key [b] resolves to 1. *)
Lemma mergeObjectAsync_no_absent_property_witness :
  (<["b" := number 1]> ∅ : gmap string any) !! "a" = None
  /\ defined (number 1) = true.
Proof.
  split; [reflexivity|].
  apply (mergeObjectAsync_no_absent_property ParseStatus.new
           [ mkAsyncPair (Sync (OK "a")) (Async (mkPromise 1 (OK undefined)))
               (Some true);
             mkAsyncPair (Sync (OK "b")) (Async (mkPromise 2 (OK (number 1))))
               None ]
           [] [1%nat; 2%nat] ParseStatus.new Valid
           (<["b" := number 1]> ∅) "b" (number 1)).
  - rewrite mergeObjectAsync_run. reflexivity.
  - reflexivity.
Defined.
